(** * Block call tracer and explorer export of go-metadium

    A shallow embedding of
    - the [blockCallsTracer] of package [native] (the tracer that collects
      the call frames of every transaction of a block), and
    - [navigateCallFrame], [blockImportHook] and [SetupExplorerDB] of
      package [explorer] (internal/explorer/db_export.go),
    with the properties of the trace collector and of the export pipeline
    stated and proved over them. *)

From Stdlib Require Import ZArith NArith String Ascii List Lia Bool.
From Stdlib Require DecimalString DecimalN HexadecimalString HexadecimalN.
From stdpp Require Import base option list.
Import ListNotations.

#[local] Set Warnings "-register-all".
#[local] Open Scope string_scope.
#[local] Open Scope list_scope.

(** ** Go values shared by both packages *)

(** [common.Address] is a 20-byte array; it is read here as the 160-bit
    big-endian number it spells, so that the zero value [common.Address{}]
    is [0]. *)
Definition Address := N.
Definition emptyAddress : Address := 0%N.

(** A Go [error] value is kept by its message; [nil] is [None]. *)
Definition error := string.

(** [[]byte] *)
Definition bytes := list Byte.byte.

(** A Go run-time panic (index out of range, nil dereference) ends the
    call; [Res] keeps it apart from a normal return. *)
Inductive Res (A : Type) : Type :=
  | Ok (a : A)
  | Panic (msg : string).
Arguments Ok {A} a.
Arguments Panic {A} msg.

Definition bindRes {A B} (r : Res A) (k : A -> Res B) : Res B :=
  match r with
  | Ok a => k a
  | Panic m => Panic m
  end.

Definition mapRes {A B} (f : A -> B) (r : Res A) : Res B :=
  match r with
  | Ok a => Ok (f a)
  | Panic m => Panic m
  end.

Declare Scope res_scope.
Delimit Scope res_scope with res.
Notation "'do' x <- r ; k" := (bindRes r (fun x => k))
  (at level 10, x name, r at level 100, k at level 200) : res_scope.

(** [s[i]] on a slice: a run-time panic outside [0 <= i < len(s)]. *)
Definition index {A} (s : list A) (i : Z) : Res A :=
  if (i <? 0)%Z then Panic "index out of range"
  else match s !! Z.to_nat i with
       | Some x => Ok x
       | None => Panic "index out of range"
       end.

(** [s[i] = x], once [s[i]] is known to be in range. *)
Definition store {A} (s : list A) (i : Z) (x : A) : list A :=
  <[Z.to_nat i := x]> s.

(** [len(s)] as a Go [int]. *)
Definition len {A} (s : list A) : Z := Z.of_nat (length s).

(** ** JSON documents

    [encoding/json] writes a Go value out as the bytes of a JSON document and
    reads such bytes back; the struct tags of the Go types say which document
    a value becomes.  The document is kept as a tree. *)
Inductive json : Type :=
  | JNull
  | JBool (b : bool)
  | JNumber (digits : string)
  | JString (s : string)
  | JArray (elems : list json)
  | JObject (members : list (string * json)).

(** The text forms of the leaf types ([encoding.TextMarshaler] and
    [TextUnmarshaler] of [common.Address], [hexutil.Big], [hexutil.Uint64],
    [hexutil.Bytes], and [vm.OpCode.String]).  They belong to packages
    [common], [common/hexutil] and [core/vm]; both the tracer's encoder and
    the explorer's decoder reach them only through these methods. *)
Class TextForms : Type := {
  Address_MarshalText : Address -> string;
  Address_UnmarshalText : string -> option Address;
  Big_MarshalText : N -> string;
  Big_UnmarshalText : string -> option N;
  Uint64_MarshalText : N -> string;
  Bytes_MarshalText : bytes -> string;
  Hash_MarshalText : N -> string;
  OpCode_String : Byte.byte -> string
}.

(** An address fits 20 bytes and a call value fits an EVM word. *)
Definition wf_Address (a : Address) : Prop := (a < 2 ^ 160)%N.
Definition wf_Big (v : N) : Prop := (v < 2 ^ 256)%N.

(** Reading back what was written gives the value again. *)
Class TextFormsLaws (tf : TextForms) : Prop := {
  Address_text_roundtrip a :
    wf_Address a -> Address_UnmarshalText (Address_MarshalText a) = Some a;
  Big_text_roundtrip v :
    wf_Big v -> Big_UnmarshalText (Big_MarshalText v) = Some v
}.

(** ** Package native: the block calls tracer *)

Module native.

(** [callLog] and [callFrame] are declared in eth/tracers/native/call.go;
    db_export.go carries a copy of the frame's field list, which is the
    one followed here. *)
Record callLog : Type := mkCallLog {
  Address_ : Address;
  Topics : list N;
  Data : bytes;
  Position : N
}.

Inductive callFrame : Type := mkCallFrame {
  Type_ : Byte.byte;             (* vm.OpCode *)
  From : Address;
  Gas : N;                       (* uint64 *)
  GasUsed : N;                   (* uint64 *)
  To : option Address;           (* *common.Address *)
  Input : bytes;
  Output : bytes;
  Error : string;
  RevertReason : string;
  Calls : list callFrame;
  Logs : list callLog;
  Value : option N               (* *big.Int, never negative in the EVM *)
}.

(** The zero value [callFrame{}]. *)
Definition zeroFrame : callFrame :=
  mkCallFrame Byte.x00 emptyAddress 0 0 None [] [] EmptyString EmptyString
    [] [] None.

Definition set_GasUsed (f : callFrame) (g : N) : callFrame :=
  mkCallFrame (Type_ f) (From f) (Gas f) g (To f) (Input f) (Output f)
    (Error f) (RevertReason f) (Calls f) (Logs f) (Value f).

Definition set_Calls (f : callFrame) (cs : list callFrame) : callFrame :=
  mkCallFrame (Type_ f) (From f) (Gas f) (GasUsed f) (To f) (Input f)
    (Output f) (Error f) (RevertReason f) cs (Logs f) (Value f).

Definition set_Logs (f : callFrame) (ls : list callLog) : callFrame :=
  mkCallFrame (Type_ f) (From f) (Gas f) (GasUsed f) (To f) (Input f)
    (Output f) (Error f) (RevertReason f) (Calls f) ls (Value f).

Record blockCallsTracerConfig : Type := mkConfig {
  OnlyTopCall : bool;
  WithLog : bool
}.

Record blockCallsTracer : Type := mkTracer {
  callstacks : list (list callFrame);
  callstack : list callFrame;
  config : blockCallsTracerConfig;
  gasLimit : N;
  depth : Z;
  interrupt : bool;
  reason : option error
}.

(** [newBlockCallsTracerObject]: only [config] is set. *)
Definition newBlockCallsTracerObject (cfg : blockCallsTracerConfig)
  : blockCallsTracer :=
  mkTracer [] [] cfg 0 0 false None.

Definition with_callstack (t : blockCallsTracer) (cs : list callFrame)
  : blockCallsTracer :=
  mkTracer (callstacks t) cs (config t) (gasLimit t) (depth t)
    (interrupt t) (reason t).

Definition with_depth (t : blockCallsTracer) (d : Z) : blockCallsTracer :=
  mkTracer (callstacks t) (callstack t) (config t) (gasLimit t) d
    (interrupt t) (reason t).

(** [types.Receipt] and [types.Log], as far as the tracer reads them. *)
Record Receipt : Type := mkReceipt { receipt_GasUsed : N }.
Record Log : Type := mkLog {
  log_Address : Address;
  log_Topics : list N;
  log_Data : bytes
}.

Section Hooks.

(** [callFrame.processOutput] and [clearFailedLogs] live in call.go next to
    the frame type; the tracer only calls them, so they are parameters. *)
Variable processOutput : callFrame -> bytes -> option error -> bool -> callFrame.
Variable clearFailedLogs : callFrame -> bool -> callFrame.

(** [encoding/json] writing a document out: the bytes, or the encoder's
    error. *)
Variable json_encode : json -> string + error.

Context {tf : TextForms}.

(** A nil slice is written [null], any other slice as an array; the empty
    list stands for the nil slice (the tracer builds its slices by [append]
    from nil, so it holds no empty non-nil slice). *)
Definition marshal_slice {A} (f : A -> json) (s : list A) : json :=
  match s with
  | [] => JNull
  | _ => JArray (map f s)
  end.

(** A member under [omitempty] is left out when its value is empty. *)
Definition omitempty (empty : bool) (key : string) (v : json)
  : list (string * json) :=
  if empty then [] else [(key, v)].

Definition marshal_callLog (l : callLog) : json :=
  JObject
    [("address", JString (Address_MarshalText (Address_ l)));
     ("topics", marshal_slice (fun h => JString (Hash_MarshalText h)) (Topics l));
     ("data", JString (Bytes_MarshalText (Data l)));
     ("position", JString (Uint64_MarshalText (Position l)))].

(** [callFrame.MarshalJSON] (generated, gen_callframe_json.go): the members
    are those of the field list that db_export.go copies, in that order, with
    their [json] tags. *)
Fixpoint MarshalJSON (c : callFrame) : json :=
  JObject
    ([("from", JString (Address_MarshalText (From c)));
      ("gas", JString (Uint64_MarshalText (Gas c)));
      ("gasUsed", JString (Uint64_MarshalText (GasUsed c)))]
     ++ match To c with
        | Some a => [("to", JString (Address_MarshalText a))]
        | None => []
        end
     ++ [("input", JString (Bytes_MarshalText (Input c)))]
     ++ omitempty (len (Output c) =? 0)%Z "output"
          (JString (Bytes_MarshalText (Output c)))
     ++ omitempty (String.eqb (Error c) EmptyString) "error" (JString (Error c))
     ++ omitempty (String.eqb (RevertReason c) EmptyString) "revertReason"
          (JString (RevertReason c))
     ++ match Calls c with
        | [] => []
        | cs => [("calls", JArray (map MarshalJSON cs))]
        end
     ++ match Logs c with
        | [] => []
        | ls => [("logs", JArray (map marshal_callLog ls))]
        end
     ++ match Value c with
        | Some v => [("value", JString (Big_MarshalText v))]
        | None => []
        end
     ++ [("type", JString (OpCode_String (Type_ c)))]).

(** The document of [json.Marshal(t.callstacks)]. *)
Definition marshal_callstacks (css : list (list callFrame)) : json :=
  marshal_slice (marshal_slice MarshalJSON) css.

Definition json_Marshal (css : list (list callFrame)) : string + error :=
  json_encode (marshal_callstacks css).

Definition OnBlockStart (t : blockCallsTracer) : blockCallsTracer :=
  mkTracer [] (callstack t) (config t) (gasLimit t) (depth t) false None.

Definition OnEnter (t : blockCallsTracer) (depth : Z) (typ : Byte.byte)
    (from to : Address) (input : bytes) (gas : N) (value : option N)
  : blockCallsTracer :=
  let t := with_depth t depth in
  if OnlyTopCall (config t) && (0 <? depth)%Z then t
  else if interrupt t then t
  else
    let call := mkCallFrame typ from
                  (if (depth =? 0)%Z then gasLimit t else gas) 0
                  (Some to) input [] EmptyString EmptyString [] [] value in
    with_callstack t (callstack t ++ [call]).

Definition captureEnd (t : blockCallsTracer) (output : bytes) (gasUsed : N)
    (err : option error) (reverted : bool) : Res blockCallsTracer :=
  if negb (len (callstack t) =? 1)%Z then Ok t
  else
    (do root <- index (callstack t) 0;
     Ok (with_callstack t
           (store (callstack t) 0 (processOutput root output err reverted))))%res.

Definition OnExit (t : blockCallsTracer) (depth : Z) (output : bytes)
    (gasUsed : N) (err : option error) (reverted : bool)
  : Res blockCallsTracer :=
  if (depth =? 0)%Z then captureEnd t output gasUsed err reverted
  else
    let t := with_depth t (depth - 1) in
    if OnlyTopCall (config t) then Ok t
    else
      let size := len (callstack t) in
      if (size <=? 1)%Z then Ok t
      else
        (do call <- index (callstack t) (size - 1);
         let stack := take (Z.to_nat (size - 1)) (callstack t) in
         let size := (size - 1)%Z in
         let call := set_GasUsed call gasUsed in
         let call := processOutput call output err reverted in
         do parent <- index stack (size - 1);
         Ok (with_callstack t
               (store stack (size - 1)
                  (set_Calls parent (Calls parent ++ [call])))))%res.

Definition OnTxStart (t : blockCallsTracer) (txGas : N) : blockCallsTracer :=
  mkTracer (callstacks t) [zeroFrame] (config t) txGas 0 false None.

Definition OnTxEnd (t : blockCallsTracer) (receipt : option Receipt)
    (err : option error) : Res blockCallsTracer :=
  match err with
  | Some _ => Ok t
  | None =>
    (do gasUsed <- match receipt with
                   | Some r => Ok (receipt_GasUsed r)
                   | None => Panic "nil pointer dereference"
                   end;
     do root <- index (callstack t) 0;
     let root := set_GasUsed root gasUsed in
     let root := if WithLog (config t) then clearFailedLogs root false
                 else root in
     let stack := store (callstack t) 0 root in
     Ok (mkTracer (callstacks t ++ [stack]) [] (config t) (gasLimit t)
           (depth t) (interrupt t) (reason t)))%res
  end.

Definition OnLog (t : blockCallsTracer) (log : Log) : Res blockCallsTracer :=
  if negb (WithLog (config t)) then Ok t
  else if OnlyTopCall (config t) && (0 <? depth t)%Z then Ok t
  else if interrupt t then Ok t
  else
    (let top := (len (callstack t) - 1)%Z in
     do cur <- index (callstack t) top;
     let l := mkCallLog (log_Address log) (log_Topics log) (log_Data log)
                (N.of_nat (length (Calls cur))) in
     Ok (with_callstack t
           (store (callstack t) top (set_Logs cur (Logs cur ++ [l])))))%res.

Definition GetResult (t : blockCallsTracer) : option string * option error :=
  match json_Marshal (callstacks t) with
  | inr err => (None, Some err)
  | inl res => (Some res, reason t)
  end.

Definition Stop (t : blockCallsTracer) (err : option error)
  : blockCallsTracer :=
  mkTracer (callstacks t) (callstack t) (config t) (gasLimit t) (depth t)
    true err.

(** The engine's per-call callbacks, and their delivery to the tracer. *)
Inductive callback : Type :=
  | CbEnter (depth : Z) (typ : Byte.byte) (from to : Address) (input : bytes)
      (gas : N) (value : option N)
  | CbExit (depth : Z) (output : bytes) (gasUsed : N) (err : option error)
      (reverted : bool)
  | CbLog (log : Log).

Definition deliver (t : blockCallsTracer) (c : callback)
  : Res blockCallsTracer :=
  match c with
  | CbEnter d typ from to input gas value =>
      Ok (OnEnter t d typ from to input gas value)
  | CbExit d output gasUsed err reverted =>
      OnExit t d output gasUsed err reverted
  | CbLog l => OnLog t l
  end.

Fixpoint run (t : blockCallsTracer) (cbs : list callback)
  : Res blockCallsTracer :=
  match cbs with
  | [] => Ok t
  | c :: cbs' => (do t' <- deliver t c; run t' cbs')%res
  end.

(** One transaction as the engine drives it: [OnTxStart], the callbacks of
    the execution, [OnTxEnd]. *)
Definition run_tx (t : blockCallsTracer) (txGas : N) (cbs : list callback)
    (receipt : option Receipt) (err : option error) : Res blockCallsTracer :=
  (do t' <- run (OnTxStart t txGas) cbs; OnTxEnd t' receipt err)%res.

End Hooks.

(** A well-nested (depth-first) run of scopes at depth [d]: each scope is
    entered, runs its own well-nested scopes one level below, and is
    exited; logs may be emitted anywhere. *)
Inductive scopes : Z -> list callback -> Prop :=
  | scopes_nil d : scopes d []
  | scopes_log d l rest : scopes d rest -> scopes d (CbLog l :: rest)
  | scopes_call d typ from to input gas value inner output gasUsed err
      reverted rest :
      scopes (d + 1) inner ->
      scopes d rest ->
      scopes d (CbEnter d typ from to input gas value
                  :: inner ++ CbExit d output gasUsed err reverted :: rest).

(** The callbacks of one executed transaction: the root scope at depth 0. *)
Inductive tx_body : list callback -> Prop :=
  | tx_body_root typ from to input gas value inner output gasUsed err
      reverted :
      scopes 1 inner ->
      tx_body (CbEnter 0 typ from to input gas value
                 :: inner ++ [CbExit 0 output gasUsed err reverted]).

Definition is_exit (c : callback) : bool :=
  match c with CbExit _ _ _ _ _ => true | _ => false end.

(** What a callback never touches. *)
Definition same_block (t t' : blockCallsTracer) : Prop :=
  callstacks t' = callstacks t /\ config t' = config t /\
  interrupt t' = interrupt t /\ reason t' = reason t.

(** Equal but for the tracked depth. *)
Definition upto_depth (t1 t2 : blockCallsTracer) : Prop :=
  t2 = with_depth t1 (depth t2).

(** A tracer as [newBlockCallsTracer] builds it for the explorer (no
    configuration), a root call carrying value, and its exit. *)
Definition fresh : blockCallsTracer :=
  newBlockCallsTracerObject (mkConfig false false).

Definition root_enter : callback :=
  CbEnter 0 Byte.xf1 1%N 2%N [] 21000%N (Some 5%N).

Definition root_exit : callback := CbExit 0 [] 21000%N None false.

End native.

(** ** Package explorer: the export hook *)

Module explorer.

(** [callFrame0]: the frame as the explorer reads it back from the trace.
    A [hexutil.Big] is read from a 0x-prefixed hexadecimal quantity, so it
    is never negative. *)
Inductive callFrame0 : Type := mkCallFrame0 {
  From : Address;
  To : option Address;            (* *common.Address, omitempty *)
  Calls : list callFrame0;
  Value : option N;               (* *hexutil.Big, omitempty *)
  TypeString : string
}.

(** The zero value [callFrame0{}]. *)
Definition zeroFrame0 : callFrame0 :=
  mkCallFrame0 emptyAddress None [] None EmptyString.

(** [types.Block], as far as the hook reads it: [Number().Int64()],
    [Hash()], and the hashes of [Transactions()]. *)
Record Block : Type := mkBlock {
  Number : Z;
  Hash : N;
  Transactions : list N
}.

(** The two statements handed to [explorerDb.Exec], with their arguments. *)
Inductive Stmt : Type :=
  | InsertInternalTransaction (tx_hash : string) (block_number : Z)
      (block_hash : string) (tx_index : Z) (call_index : Z)
      (from to value : string)
  | InsertBlockData (number : Z) (hash : string) (block_data : string)
      (trace_data : option string).

(** A [log.Error] line: message, block number, block hash, error. *)
Record LogLine : Type := mkLogLine {
  log_msg : string;
  log_number : Z;
  log_hash : N;
  log_err : error
}.

(** What the hook leaves behind: the statements executed on the store, in
    order, and the lines logged. *)
Record World : Type := mkWorld {
  executed : list Stmt;
  logged : list LogLine
}.

(** A call either returns or panics; the statements already executed stay
    executed either way. *)
Inductive Run (A : Type) : Type :=
  | Done (a : A) (w : World)
  | Crash (msg : string) (w : World).
Arguments Done {A} a w.
Arguments Crash {A} msg w.

Definition world_of {A} (r : Run A) : World :=
  match r with Done _ w => w | Crash _ w => w end.

Definition is_Done {A} (r : Run A) : bool :=
  match r with Done _ _ => true | Crash _ _ => false end.

Definition is_internal (s : Stmt) : bool :=
  match s with InsertInternalTransaction _ _ _ _ _ _ _ _ => true | _ => false end.

(** ASCII lower case; [encoding/json] matches an object key with a struct
    field's name without regard to case. *)
Definition lower (c : ascii) : ascii :=
  let n := nat_of_ascii c in
  if (65 <=? n)%nat && (n <=? 90)%nat then ascii_of_nat (n + 32) else c.

Fixpoint foldName (s : string) : string :=
  match s with
  | EmptyString => EmptyString
  | String c s' => String (lower c) (foldName s')
  end.

(** Modelled from the spec: [hexutil.Big.String] (package common/hexutil)
    gives the text stored in the [value] column; the spec describes that
    column as the decimal string form of the big integer. *)
Definition Big_String (v : N) : string :=
  DecimalString.NilZero.string_of_uint (N.to_uint v).

(** The frames of a tree in depth-first pre-order: a frame, then the
    frames of each of its calls in stored order. *)
Fixpoint frames_of (f : callFrame0) : list callFrame0 :=
  f :: flat_map frames_of (Calls f).

(** The qualification test in the words of the spec: type Call, [from]
    non-zero, [to] present and non-zero, [value] present and above zero. *)
Definition qualifies_spec (f : callFrame0) : bool :=
  String.eqb (TypeString f) "Call"
  && negb (From f =? emptyAddress)%N
  && match To f with
     | Some to => negb (to =? emptyAddress)%N
     | None => false
     end
  && match Value f with
     | Some v => (0 <? v)%N
     | None => false
     end.

(** The same test without the demand on the [to] address itself: type
    Call, [from] non-zero, [to] present, [value] present and above zero. *)
Definition qualifies (f : callFrame0) : bool :=
  String.eqb (TypeString f) "Call"
  && negb (From f =? emptyAddress)%N
  && match To f with
     | Some _ => true
     | None => false
     end
  && match Value f with
     | Some v => (0 <? v)%N
     | None => false
     end.

(** The frames of a tree for which the walk executes an insert, in the
    order of the inserts, and whether the walk ends in a panic. *)
Fixpoint walk (f : callFrame0) : list callFrame0 * bool :=
  if negb (String.eqb (TypeString f) "Call") || (From f =? emptyAddress)%N
  then ([], false)
  else
    match To f, Value f with
    | None, _ => ([], false)
    | Some _, None => ([], true)
    | Some _, Some v =>
      if (v =? 0)%N then ([], false)
      else
        let '(below, panicked) :=
          (fix range (calls : list callFrame0) : list callFrame0 * bool :=
             match calls with
             | [] => ([], false)
             | call :: calls' =>
                 let '(fs, panicked) := walk call in
                 if panicked then (fs, true)
                 else let '(fs', panicked') := range calls' in
                      (fs ++ fs', panicked')
             end) (Calls f) in
        (f :: below, panicked)
    end.

(** The loop of [walk] over the calls of a frame, on its own. *)
Fixpoint walk_calls (calls : list callFrame0) : list callFrame0 * bool :=
  match calls with
  | [] => ([], false)
  | call :: calls' =>
      let '(fs, panicked) := walk call in
      if panicked then (fs, true)
      else let '(fs', panicked') := walk_calls calls' in
           (fs ++ fs', panicked')
  end.

Definition stmt_call_index (s : Stmt) : option Z :=
  match s with
  | InsertInternalTransaction _ _ _ _ c _ _ _ => Some c
  | InsertBlockData _ _ _ _ => None
  end.

Definition stmt_tx_index (s : Stmt) : option Z :=
  match s with
  | InsertInternalTransaction _ _ _ ix _ _ _ _ => Some ix
  | InsertBlockData _ _ _ _ => None
  end.

Definition stmt_tx_hash (s : Stmt) : option string :=
  match s with
  | InsertInternalTransaction h _ _ _ _ _ _ _ => Some h
  | InsertBlockData _ _ _ _ => None
  end.

Definition stmt_value (s : Stmt) : option string :=
  match s with
  | InsertInternalTransaction _ _ _ _ _ _ _ v => Some v
  | InsertBlockData _ _ _ _ => None
  end.

(** Reading a decimal string. *)
Definition read_decimal (s : string) : option N :=
  N.of_uint <$> DecimalString.NilZero.uint_of_string s.

(** The transactions of a block, each with the call stack it contributed
    to the trace; a transaction that failed validation contributed none. *)
Definition trace_of (txs : list (N * option (list callFrame0)))
  : list (list callFrame0) :=
  omap snd txs.

(** The hash of the transaction behind each stack of the trace, in the
    order of the trace. *)
Definition producers (txs : list (N * option (list callFrame0))) : list N :=
  omap (fun tx => match snd tx with
                  | Some _ => Some (fst tx)
                  | None => None
                  end) txs.

(** Whether the walk over a frame of the stack at [ix] returns: it panics
    on a frame that lacks [value] behind the first three tests, and on the
    first insert when the block has no transaction at [ix]. *)
Definition walk_returns (block : Block) (ix : Z) (f : callFrame0) : bool :=
  match index (Transactions block) ix with
  | Ok _ => negb (snd (walk f))
  | Panic _ => match fst (walk f) with [] => negb (snd (walk f)) | _ => false end
  end.

Fixpoint stacks_return (block : Block) (ix : Z)
    (callstacks : list (list callFrame0)) : bool :=
  match callstacks with
  | [] => true
  | stack :: rest =>
      forallb (walk_returns block ix) stack
      && stacks_return block (ix + 1) rest
  end.

(** Reading the elements of an array, and the members of an object. *)
Section Loops.

Context {A : Type}.
Variable elem : json -> option A.
Variable member : string -> json -> A -> option A.

Fixpoint unmarshal_elems (js : list json) : option (list A) :=
  match js with
  | [] => Some []
  | j :: js' =>
      x ← elem j; xs ← unmarshal_elems js'; Some (x :: xs)
  end.

Definition unmarshal_slice (j : json) : option (list A) :=
  match j with
  | JNull => Some []
  | JArray elems => unmarshal_elems elems
  | _ => None
  end.

Fixpoint unmarshal_members (ms : list (string * json)) (a : A) : option A :=
  match ms with
  | [] => Some a
  | (key, v) :: ms' => a' ← member key v a; unmarshal_members ms' a'
  end.

End Loops.

Section Explorer.

Context {tf : TextForms}.

(** [common.Hash.Hex] and [common.Address.Hex] (the latter with its
    checksum casing). *)
Variable Hash_Hex : N -> string.
Variable Address_Hex : Address -> string.

(** The answer of the store to a statement, given those executed before:
    [None] when it is accepted, the error otherwise. *)
Variable Exec_err : list Stmt -> Stmt -> option error.

(** [encoding/json] reading the bytes of a document; [None] on a syntax
    error. *)
Variable json_parse : string -> option json.

(** [json.Marshal(ethapi.RPCMarshalBlockEx(bc, block, receipts, traceData))]:
    the chain and the receipts only feed this call. *)
Variable marshalBlockData : Block -> string -> string + error.

Definition Exec (w : World) (s : Stmt) : World * option error :=
  (mkWorld (executed w ++ [s]) (logged w), Exec_err (executed w) s).

Definition log_Error (w : World) (msg : string) (block : Block) (err : error)
  : World :=
  mkWorld (executed w) (logged w ++ [mkLogLine msg (Number block) (Hash block) err]).

(** *** Reading the trace back: [json.Unmarshal(traceData, &callstacks)] *)

(** One member of an object read into a [callFrame0]; [frames] reads the
    value of [calls]. [encoding/json] is followed on the documents the
    tracer writes: member names of ASCII letters, each member at most
    once. Outside of these the library also folds the long s (U+017F) and
    the Kelvin sign (U+212A) onto [s] and [k], and it reads a second
    [calls] member into the frames the first one left instead of fresh
    ones; neither is followed here. *)
Definition unmarshal_member (frames : json -> option (list callFrame0))
    (key : string) (v : json) (f : callFrame0) : option callFrame0 :=
  let k := foldName key in
  if String.eqb k "from" then
    match v with
    | JString s =>
        a ← Address_UnmarshalText s;
        Some (mkCallFrame0 a (To f) (Calls f) (Value f) (TypeString f))
    | _ => None
    end
  else if String.eqb k "to" then
    match v with
    | JNull => Some (mkCallFrame0 (From f) None (Calls f) (Value f) (TypeString f))
    | JString s =>
        a ← Address_UnmarshalText s;
        Some (mkCallFrame0 (From f) (Some a) (Calls f) (Value f) (TypeString f))
    | _ => None
    end
  else if String.eqb k "calls" then
    cs ← frames v;
    Some (mkCallFrame0 (From f) (To f) cs (Value f) (TypeString f))
  else if String.eqb k "value" then
    match v with
    | JNull => Some (mkCallFrame0 (From f) (To f) (Calls f) None (TypeString f))
    | JString s =>
        n ← Big_UnmarshalText s;
        Some (mkCallFrame0 (From f) (To f) (Calls f) (Some n) (TypeString f))
    | _ => None
    end
  else if String.eqb k "type" then
    match v with
    | JNull => Some f
    | JString s => Some (mkCallFrame0 (From f) (To f) (Calls f) (Value f) s)
    | _ => None
    end
  else Some f.

(** A struct is read from [null] (left as it is) or from an object, member
    by member in the order written; a slice from [null] (nil) or from an
    array, each element into a zero value. *)
Fixpoint unmarshal_callFrame0 (j : json) (f : callFrame0)
  : option callFrame0 :=
  match j with
  | JNull => Some f
  | JObject members =>
      unmarshal_members
        (unmarshal_member
           (unmarshal_slice (fun j' => unmarshal_callFrame0 j' zeroFrame0)))
        members f
  | _ => None
  end.

Definition unmarshal_callstacks (j : json) : option (list (list callFrame0)) :=
  unmarshal_slice
    (unmarshal_slice (fun j => unmarshal_callFrame0 j zeroFrame0)) j.

(** The decoder's error, whose text is not followed here. *)
Definition unmarshal_error : error := "json: cannot unmarshal".

Definition json_Unmarshal (traceData : string)
  : option (list (list callFrame0)) :=
  j ← json_parse traceData; unmarshal_callstacks j.

(** The insert executed for frame [f] of the stack at [tx_index] with the
    counter at [call_index]. *)
Definition record (block : Block) (tx : N) (tx_index call_index : Z)
    (f : callFrame0) : Stmt :=
  InsertInternalTransaction (Hash_Hex tx) (Number block)
    (Hash_Hex (Hash block)) tx_index call_index
    (Address_Hex (From f))
    (Address_Hex (match To f with Some to => to | None => emptyAddress end))
    (Big_String (match Value f with Some v => v | None => 0%N end)).

Fixpoint records (block : Block) (tx : N) (tx_index call_index : Z)
    (fs : list callFrame0) : list Stmt :=
  match fs with
  | [] => []
  | f :: fs' =>
      record block tx tx_index call_index f
      :: records block tx tx_index (call_index + 1) fs'
  end.

(** The walk over a frame adds to the store exactly the inserts of the
    frames [walk] lists, numbered from the counter on, and leaves the
    counter advanced by their number. *)
Definition refines (block : Block) (tx : N) (ix c : Z) (w : World)
    (r : Run Z) (expected : list callFrame0 * bool) : Prop :=
  executed (world_of r) = executed w ++ records block tx ix c (fst expected)
  /\ is_Done r = negb (snd expected)
  /\ (forall c' w', r = Done c' w' -> c' = (c + len (fst expected))%Z).

(** Statement [s] is the insert of a frame that passes the test and sits in
    a tree of [stack], the stack at position [ix] of the trace, with the
    hash of the block's transaction at that position. *)
Definition from_stack (block : Block) (ix : Z) (stack : list callFrame0)
    (s : Stmt) : Prop :=
  exists root g tx c,
    root ∈ stack /\ g ∈ frames_of root /\ qualifies g = true
    /\ index (Transactions block) ix = Ok tx
    /\ s = record block tx ix c g.

(** *** The walk over a call frame *)

Fixpoint navigateCallFrame (block : Block) (tx_index : Z) (call_index : Z)
    (frame : callFrame0) (w : World) : Run Z :=
  if negb (String.eqb (TypeString frame) "Call")
     || (From frame =? emptyAddress)%N
  then Done call_index w
  else
    match To frame with
    | None => Done call_index w
    | Some to =>
      match Value frame with
      | None => Crash "nil pointer dereference" w
      | Some value =>
        if (value =? 0)%N then Done call_index w
        else
          match index (Transactions block) tx_index with
          | Panic msg => Crash msg w
          | Ok tx =>
            let '(w, err) :=
              Exec w (InsertInternalTransaction (Hash_Hex tx) (Number block)
                        (Hash_Hex (Hash block)) tx_index call_index
                        (Address_Hex (From frame)) (Address_Hex to)
                        (Big_String value)) in
            let call_index := (call_index + 1)%Z in
            let w := match err with
                     | Some e =>
                         log_Error w "Failed to insert internal transaction"
                           block e
                     | None => w
                     end in
            (fix range (calls : list callFrame0) (call_index : Z) (w : World)
               : Run Z :=
               match calls with
               | [] => Done call_index w
               | call :: calls' =>
                   match navigateCallFrame block tx_index call_index call w with
                   | Done call_index' w' => range calls' call_index' w'
                   | Crash msg w' => Crash msg w'
                   end
               end) (Calls frame) call_index w
          end
      end
    end.

(** [for _, call := range frame.Calls], on its own. *)
Fixpoint range_calls (block : Block) (tx_index : Z)
    (calls : list callFrame0) (call_index : Z) (w : World) : Run Z :=
  match calls with
  | [] => Done call_index w
  | call :: calls' =>
      match navigateCallFrame block tx_index call_index call w with
      | Done call_index' w' => range_calls block tx_index calls' call_index' w'
      | Crash msg w' => Crash msg w'
      end
  end.

(** [for _, frame := range callstack]: the counter starts at 0 for every
    frame of the stack. *)
Fixpoint range_callstack (block : Block) (ix : Z) (callstack : list callFrame0)
    (w : World) : Run unit :=
  match callstack with
  | [] => Done tt w
  | frame :: rest =>
      match navigateCallFrame block ix 0 frame w with
      | Done _ w' => range_callstack block ix rest w'
      | Crash msg w' => Crash msg w'
      end
  end.

(** [for ix, callstack := range callstacks] *)
Fixpoint range_callstacks (block : Block) (ix : Z)
    (callstacks : list (list callFrame0)) (w : World) : Run unit :=
  match callstacks with
  | [] => Done tt w
  | callstack :: rest =>
      match range_callstack block ix callstack w with
      | Done _ w' => range_callstacks block (ix + 1) rest w'
      | Crash msg w' => Crash msg w'
      end
  end.

Definition blockImportHook (block : Block) (traceData : string) (w : World)
  : Run unit :=
  match marshalBlockData block traceData with
  | inr err => Done tt (log_Error w "Failed to marshal block data" block err)
  | inl jsonData =>
    if negb (Z.of_nat (String.length traceData) =? 0)%Z then
      let '(w, err) :=
        Exec w (InsertBlockData (Number block) (Hash_Hex (Hash block))
                  jsonData (Some traceData)) in
      let w := match err with
               | Some e => log_Error w "Failed to insert block data" block e
               | None => w
               end in
      match json_Unmarshal traceData with
      | None =>
          let w := log_Error w "Failed to unmarshal trace data" block
                     unmarshal_error in
          Done tt (log_Error w "Failed to insert block data" block
                     unmarshal_error)
      | Some callstacks => range_callstacks block 0 callstacks w
      end
    else
      let '(w, err) :=
        Exec w (InsertBlockData (Number block) (Hash_Hex (Hash block))
                  jsonData None) in
      match err with
      | Some e => Done tt (log_Error w "Failed to insert block data" block e)
      | None => Done tt w
      end
  end.

End Explorer.

End explorer.

(** ** The trace as a shared format

    The tracer writes [callFrame] values, the explorer reads [callFrame0]
    values back from the same bytes. *)

Module trace.

Section Trace.

Context {tf : TextForms}.

(** What a tracer frame looks like through the explorer's frame type: the
    fields [callFrame0] declares, the type by its name. *)
Fixpoint frame0_of (c : native.callFrame) : explorer.callFrame0 :=
  explorer.mkCallFrame0 (native.From c) (native.To c)
    (map frame0_of (native.Calls c)) (native.Value c)
    (OpCode_String (native.Type_ c)).

End Trace.

(** A well-formed frame: addresses of 20 bytes and values of at most 256
    bits, throughout the tree. *)
Fixpoint wf_callFrame (c : native.callFrame) : bool :=
  (native.From c <? 2 ^ 160)%N
  && match native.To c with
     | Some a => (a <? 2 ^ 160)%N
     | None => true
     end
  && match native.Value c with
     | Some v => (v <? 2 ^ 256)%N
     | None => true
     end
  && forallb wf_callFrame (native.Calls c).

End trace.

(** ** Text forms after package hexutil

    One instance of [TextForms]: quantities and byte strings written as
    ["0x"] followed by hexadecimal digits, the way package common/hexutil
    writes them; fixed-size values (addresses, hashes) keep all their digits,
    big integers drop leading zeros and are read back only up to 64 digits
    (256 bits). *)

Module hexutil.

(** The digit of a value below 16, in lower case, and the value of a digit
    in either case, by character code. *)
Definition digit (n : N) : ascii :=
  ascii_of_N (if (n <? 10)%N then n + 48 else n + 87)%N.

Definition digit_value (c : ascii) : option N :=
  let code := N_of_ascii c in
  if (48 <=? code)%N && (code <=? 57)%N then Some (code - 48)%N
  else if (97 <=? code)%N && (code <=? 102)%N then Some (code - 87)%N
  else if (65 <=? code)%N && (code <=? 70)%N then Some (code - 55)%N
  else None.

(** The [w] low hexadecimal digits of [n], most significant first. *)
Fixpoint fixed (w : nat) (n : N) : string :=
  match w with
  | O => EmptyString
  | S w' => (fixed w' (n / 16) ++ String (digit (n mod 16)) EmptyString)%string
  end.

Fixpoint value_of (s : string) (acc : N) : option N :=
  match s with
  | EmptyString => Some acc
  | String c s' => d ← digit_value c; value_of s' (acc * 16 + d)%N
  end.

Definition strip0x (s : string) : option string :=
  match s with
  | String "0" (String "x" rest) => Some rest
  | String "0" (String "X" rest) => Some rest
  | _ => None
  end%char.

(** The number of hexadecimal digits of [n], at least one. *)
Definition hexlen (n : N) : nat := S (N.to_nat (N.log2 n / 4)).

Definition EncodeFixed (w : nat) (n : N) : string :=
  ("0x" ++ fixed w n)%string.

Definition DecodeFixed (w : nat) (s : string) : option N :=
  rest ← strip0x s;
  if (String.length rest =? w)%nat then value_of rest 0 else None.

Definition EncodeBig (n : N) : string := ("0x" ++ fixed (hexlen n) n)%string.

Definition DecodeBig (s : string) : option N :=
  rest ← strip0x s;
  if (String.length rest =? 0)%nat || (64 <? String.length rest)%nat then None
  else value_of rest 0.

Fixpoint EncodeBytes_digits (b : bytes) : string :=
  match b with
  | [] => EmptyString
  | x :: b' => (fixed 2 (Byte.to_N x) ++ EncodeBytes_digits b')%string
  end.

(** Modelled from the spec: [vm.OpCode.String] (package core/vm) names the
    operation that opened a scope; the spec lists the names Call, StaticCall,
    DelegateCall, CallCode, Create, Create2 and SelfDestruct. *)
Definition OpCode_name (op : Byte.byte) : string :=
  match op with
  | Byte.xf0 => "Create"
  | Byte.xf1 => "Call"
  | Byte.xf2 => "CallCode"
  | Byte.xf4 => "DelegateCall"
  | Byte.xf5 => "Create2"
  | Byte.xfa => "StaticCall"
  | Byte.xff => "SelfDestruct"
  | _ => "opcode not defined"
  end.

#[export] Instance text : TextForms := {|
  Address_MarshalText := EncodeFixed 40;
  Address_UnmarshalText := DecodeFixed 40;
  Big_MarshalText := EncodeBig;
  Big_UnmarshalText := DecodeBig;
  Uint64_MarshalText := EncodeBig;
  Bytes_MarshalText := fun b => ("0x" ++ EncodeBytes_digits b)%string;
  Hash_MarshalText := EncodeFixed 64;
  OpCode_String := OpCode_name
|}.

End hexutil.

(** ** Stand-ins for the collaborators

    Concrete collaborators to run the definitions on concrete inputs: an
    output policy that keeps the output bytes, a log scrubber that keeps
    every log, a JSON writer and a store that accepts every statement. *)

Module sample.

Definition processOutput (f : native.callFrame) (output : bytes)
    (err : option error) (reverted : bool) : native.callFrame :=
  native.mkCallFrame (native.Type_ f) (native.From f) (native.Gas f)
    (native.GasUsed f) (native.To f) (native.Input f) output
    (match err with Some e => e | None => EmptyString end) (native.RevertReason f)
    (native.Calls f) (native.Logs f) (native.Value f).

Definition clearFailedLogs (f : native.callFrame) (parentFailed : bool)
  : native.callFrame := f.

Definition dquote : ascii := ascii_of_nat 34.

Fixpoint json_text (j : json) : string :=
  match j with
  | JNull => "null"
  | JBool true => "true"
  | JBool false => "false"
  | JNumber d => d
  | JString s => String dquote s ++ String dquote EmptyString
  | JArray elems =>
      "[" ++ (fix all (js : list json) : string :=
                match js with
                | [] => EmptyString
                | [j'] => json_text j'
                | j' :: js' => json_text j' ++ "," ++ all js'
                end) elems ++ "]"
  | JObject members =>
      "{" ++ (fix all (ms : list (string * json)) : string :=
                match ms with
                | [] => EmptyString
                | [(k, v)] =>
                    String dquote k ++ String dquote ":" ++ json_text v
                | (k, v) :: ms' =>
                    String dquote k ++ String dquote ":" ++ json_text v
                    ++ "," ++ all ms'
                end) members ++ "}"
  end%string.

Definition json_encode (j : json) : string + error := inl (json_text j).

Definition Exec_err (before : list explorer.Stmt) (s : explorer.Stmt)
  : option error := None.

Definition Hash_Hex : N -> string := hexutil.EncodeFixed 64.

(** Without the mixed-case checksum of [common.Address.Hex]. *)
Definition Address_Hex : Address -> string := hexutil.EncodeFixed 40.

(** A reader for compact JSON text without escapes and numbers, enough for
    the traces the tracer writes. *)
Fixpoint strip_prefix (p s : string) : option string :=
  match p, s with
  | EmptyString, _ => Some s
  | String a p', String b s' => if Ascii.eqb a b then strip_prefix p' s' else None
  | String _ _, EmptyString => None
  end.

Fixpoint parse_string (s : string) : option (string * string) :=
  match s with
  | EmptyString => None
  | String c rest =>
      if Ascii.eqb c dquote then Some (EmptyString, rest)
      else if Ascii.eqb c (ascii_of_nat 92) then None
      else '(str, rest') ← parse_string rest; Some (String c str, rest')
  end.

Fixpoint parse_value (fuel : nat) (s : string) : option (json * string) :=
  match fuel with
  | O => None
  | S fuel' =>
    match strip_prefix "null" s, strip_prefix "true" s, strip_prefix "false" s with
    | Some rest, _, _ => Some (JNull, rest)
    | _, Some rest, _ => Some (JBool true, rest)
    | _, _, Some rest => Some (JBool false, rest)
    | None, None, None =>
      match s with
      | EmptyString => None
      | String c rest =>
        if Ascii.eqb c dquote then
          '(str, rest') ← parse_string rest; Some (JString str, rest')
        else if Ascii.eqb c "[" then
          match strip_prefix "]" rest with
          | Some rest' => Some (JArray [], rest')
          | None =>
              '(elems, rest') ← parse_elems fuel' rest;
              Some (JArray elems, rest')
          end
        else if Ascii.eqb c "{" then
          match strip_prefix "}" rest with
          | Some rest' => Some (JObject [], rest')
          | None =>
              '(members, rest') ← parse_members fuel' rest;
              Some (JObject members, rest')
          end
        else None
      end
    end
  end
with parse_elems (fuel : nat) (s : string) : option (list json * string) :=
  match fuel with
  | O => None
  | S fuel' =>
      '(v, rest) ← parse_value fuel' s;
      match rest with
      | String c rest' =>
          if Ascii.eqb c "," then
            '(vs, rest'') ← parse_elems fuel' rest'; Some (v :: vs, rest'')
          else if Ascii.eqb c "]" then Some ([v], rest')
          else None
      | EmptyString => None
      end
  end
with parse_members (fuel : nat) (s : string)
  : option (list (string * json) * string) :=
  match fuel with
  | O => None
  | S fuel' =>
      match s with
      | String q rest =>
          if Ascii.eqb q dquote then
            '(k, rest) ← parse_string rest;
            rest ← strip_prefix ":" rest;
            '(v, rest) ← parse_value fuel' rest;
            match rest with
            | String c rest' =>
                if Ascii.eqb c "," then
                  '(ms, rest'') ← parse_members fuel' rest';
                  Some ((k, v) :: ms, rest'')
                else if Ascii.eqb c "}" then Some ([(k, v)], rest')
                else None
            | EmptyString => None
            end
          else None
      | EmptyString => None
      end
  end.

Definition json_parse (s : string) : option json :=
  match parse_value (S (String.length s)) s with
  | Some (j, EmptyString) => Some j
  | _ => None
  end.

(** A block document that is always written, and one that never is. *)
Definition marshalBlockData (block : explorer.Block) (traceData : string)
  : string + error := inl "{}".

Definition marshalBlockData_failing (block : explorer.Block)
    (traceData : string) : string + error :=
  inr "json: unsupported value".

(** A block of two transactions, and an empty store. *)
Definition block : explorer.Block := explorer.mkBlock 7 700%N [161%N; 162%N].

Definition nothing : explorer.World := explorer.mkWorld [] [].

(** A call that carries value to the zero address. *)
Definition burn : explorer.callFrame0 :=
  explorer.mkCallFrame0 1%N (Some 0%N) [] (Some 5%N) "Call".

(** A call without value whose only sub-call carries value. *)
Definition transfer : explorer.callFrame0 :=
  explorer.mkCallFrame0 2%N (Some 3%N) [] (Some 3%N) "Call".

Definition plain_call : explorer.callFrame0 :=
  explorer.mkCallFrame0 1%N (Some 2%N) [transfer] (Some 0%N) "Call".

(** A call carrying value with a value-carrying sub-call and a static call
    below that. *)
Definition nested : explorer.callFrame0 :=
  explorer.mkCallFrame0 1%N (Some 2%N)
    [explorer.mkCallFrame0 2%N (Some 3%N)
       [explorer.mkCallFrame0 3%N (Some 4%N) [] (Some 0%N) "StaticCall"]
       (Some 3%N) "Call"]
    (Some 5%N) "Call".

Definition navigate :=
  explorer.navigateCallFrame Hash_Hex Address_Hex Exec_err.

Definition import_hook :=
  explorer.blockImportHook (tf := hexutil.text) Hash_Hex Address_Hex Exec_err
    json_parse marshalBlockData.

Definition walk_trace :=
  explorer.range_callstacks Hash_Hex Address_Hex Exec_err.

(** The two transactions of [block] with the stacks they contributed: both
    executed; and the first one failed validation. *)
Definition both_executed : list (N * option (list explorer.callFrame0)) :=
  [(161%N, Some [nested]); (162%N, Some [transfer])].

Definition first_failed : list (N * option (list explorer.callFrame0)) :=
  [(161%N, None); (162%N, Some [transfer])].

(** A root call as the tracer holds it, with the gas it was given, and one
    with neither [to] nor [value] next to one with a zero [to] and a zero
    [value]. *)
Definition traced (gas : N) : native.callFrame :=
  native.mkCallFrame Byte.xf1 1%N gas 0%N (Some 2%N) [] [] EmptyString
    EmptyString [] [] (Some 5%N).

Definition traced_absent : native.callFrame :=
  native.mkCallFrame Byte.xf0 1%N 0%N 0%N None [] [] EmptyString
    EmptyString [] [] None.

Definition traced_zero : native.callFrame :=
  native.mkCallFrame Byte.xf1 1%N 0%N 0%N (Some 0%N) [] [] EmptyString
    EmptyString [traced 7%N] [] (Some 0%N).

(** The callbacks of a transaction whose root call carries no value and
    whose one sub-call transfers 3, and the placeholder frame of
    [OnTxStart] as the explorer reads it back. *)
Definition plain_call_tx : list native.callback :=
  [native.CbEnter 0 Byte.xf1 1%N 2%N [] 21000%N (Some 0%N);
   native.CbEnter 1 Byte.xf1 2%N 3%N [] 5000%N (Some 3%N);
   native.CbExit 1 [] 100%N None false;
   native.CbExit 0 [] 21000%N None false].

Definition placeholder : explorer.callFrame0 :=
  explorer.mkCallFrame0 0%N None [] None "opcode not defined".

End sample.

(** ** The tracer over whole transactions and blocks *)

Module collector.
Import native.

(** The frame [OnEnter] pushes. *)
Definition entered (typ : Byte.byte) (from to : Address) (input : bytes)
    (gas : N) (value : option N) : callFrame :=
  mkCallFrame typ from gas 0 (Some to) input [] EmptyString EmptyString
    [] [] value.

(** The log [OnLog] attaches to frame [p] when logs are collected: its
    position is the number of sub-calls [p] has completed. *)
Definition add_log (withLog : bool) (p : callFrame) (l : Log) : callFrame :=
  if withLog then
    set_Logs p (Logs p ++ [mkCallLog (log_Address l) (log_Topics l)
                             (log_Data l) (N.of_nat (length (Calls p)))])
  else p.

Definition is_log (c : callback) : bool :=
  match c with CbLog _ => true | _ => false end.

(** One transaction as the engine delivers it. *)
Record transaction : Type := mkTransaction {
  tx_gas : N;
  tx_callbacks : list callback;
  tx_receipt : option Receipt;
  tx_err : option error
}.

Definition succeeded (x : transaction) : bool :=
  match tx_err x with None => true | Some _ => false end.

Section Collector.

Variable processOutput : callFrame -> bytes -> option error -> bool -> callFrame.
Variable clearFailedLogs : callFrame -> bool -> callFrame.
Variable json_encode : json -> string + error.
Context {tf : TextForms}.

(** The tree a well-nested run of scopes at depth [d] describes: running
    the callbacks under the open frame [p] turns it into [p'], each exited
    scope nested under it as one more call, each log attached to the frame
    open at that moment. *)
Inductive builds (withLog : bool)
  : Z -> list callback -> callFrame -> callFrame -> Prop :=
  | builds_nil d p : builds withLog d [] p p
  | builds_log d l rest p p' :
      builds withLog d rest (add_log withLog p l) p' ->
      builds withLog d (CbLog l :: rest) p p'
  | builds_call d typ from to input gas value inner output gasUsed err
      reverted rest p child p' :
      builds withLog (d + 1) inner (entered typ from to input gas value)
        child ->
      builds withLog d rest
        (set_Calls p
           (Calls p ++ [processOutput (set_GasUsed child gasUsed) output err
                          reverted])) p' ->
      builds withLog d
        (CbEnter d typ from to input gas value
           :: inner ++ CbExit d output gasUsed err reverted :: rest) p p'.

(** The frame at index 0 of a finished stack: the zero frame of
    [OnTxStart] with the receipt's gas, scrubbed when logs are collected. *)
Definition placeholder (withLog : bool) (receipt : Receipt) : callFrame :=
  let z := set_GasUsed zeroFrame (receipt_GasUsed receipt) in
  if withLog then clearFailedLogs z false else z.

(** The root frame a well-nested transaction leaves on the stack, given
    the root as [OnEnter] pushed it and the scopes [inner] below it: with
    sub-calls collected, the tree those scopes describe; in top-call-only
    mode, the root as entered with logs of its own only. *)
Definition captured (cfg : blockCallsTracerConfig) (inner : list callback)
    (pushed root : callFrame) : Prop :=
  if OnlyTopCall cfg then
    exists logs,
      root = set_Logs pushed logs
      /\ Forall (fun l => Position l = 0%N) logs
      /\ (WithLog cfg = false -> logs = [])
  else builds (WithLog cfg) 1 inner pushed root.

(** The transactions of a block in order, after [OnBlockStart]. *)
Fixpoint run_txs (t : blockCallsTracer) (txs : list transaction)
  : Res blockCallsTracer :=
  match txs with
  | [] => Ok t
  | x :: txs' =>
      (do t' <- run_tx processOutput clearFailedLogs t (tx_gas x)
                  (tx_callbacks x) (tx_receipt x) (tx_err x);
       run_txs t' txs')%res
  end.

Definition run_block (t : blockCallsTracer) (txs : list transaction)
  : Res blockCallsTracer :=
  run_txs (OnBlockStart t) txs.

(** Transaction [x], run by a tracer configured as [cfg], appends [stack]
    to the block's list. *)
Definition produces (cfg : blockCallsTracerConfig) (x : transaction)
    (stack : list callFrame) : Prop :=
  exists t t',
    config t = cfg
    /\ run_tx processOutput clearFailedLogs t (tx_gas x) (tx_callbacks x)
         (tx_receipt x) (tx_err x) = Ok t'
    /\ callstacks t' = callstacks t ++ [stack].

(** [GetBytes]: the stacks written one by one between brackets, with a
    comma before every stack but the first. *)
Fixpoint GetBytes_range (i : Z) (stacks : list (list callFrame))
    (bb : string) : string + error :=
  match stacks with
  | [] => inl bb
  | s :: rest =>
      match json_encode (marshal_slice MarshalJSON s) with
      | inr e => inr e
      | inl o =>
          let bb := if negb (i =? 0)%Z then (bb ++ ",")%string else bb in
          GetBytes_range (i + 1) rest (bb ++ o)%string
      end
  end.

Definition GetBytes (t : blockCallsTracer) : option string * option error :=
  match GetBytes_range 0 (callstacks t) "[" with
  | inr e => (None, Some e)
  | inl bb => (Some (bb ++ "]")%string, reason t)
  end.

(** The closure installed as [core.BlockTraceGetResult] in
    [SetupExplorerDB], over the package variable [blockTracer]. *)
Definition BlockTraceGetResult (blockTracer : option blockCallsTracer)
  : Res (option string * option error) :=
  match blockTracer with
  | None => Panic "blockTracer is not set up."
  | Some t =>
      match GetResult json_encode t with
      | (_, Some err) => Ok (None, Some err)
      | (res, None) => Ok (res, None)
      end
  end.

End Collector.

(** The texts of [texts] with [sep] between them. *)
Fixpoint join (sep : string) (texts : list string) : string :=
  match texts with
  | [] => EmptyString
  | [o] => o
  | o :: rest => (o ++ sep ++ join sep rest)%string
  end.

(** How [encoding/json] writes an array whose elements it can write. *)
Definition writes_arrays (json_encode : json -> string + error) : Prop :=
  forall js texts,
    Forall2 (fun j o => json_encode j = inl o) js texts ->
    json_encode (JArray js) = inl ("[" ++ join "," texts ++ "]")%string.

End collector.

(** ** The export hook: more of package explorer *)

Module exporter.
Import explorer.

(** The frames of a tree that pass the test together with every frame
    above them, in depth-first pre-order. *)
Fixpoint reachable (f : callFrame0) : list callFrame0 :=
  if qualifies f then f :: flat_map reachable (Calls f) else [].

Section Hook0.

Context {tf : TextForms}.
Variable Hash_Hex : N -> string.
Variable Address_Hex : Address -> string.
Variable Exec_err : list Stmt -> Stmt -> option error.
Variable json_parse : string -> option json.
Variable marshalBlockData : Block -> string -> string + error.

(** The line logged for each statement of [new] the store refuses, given
    the statements [before] it. *)
Fixpoint insert_failures (block : Block) (before new : list Stmt)
  : list LogLine :=
  match new with
  | [] => []
  | s :: rest =>
      match Exec_err before s with
      | Some e =>
          [mkLogLine "Failed to insert internal transaction" (Number block)
             (Hash block) e]
      | None => []
      end ++ insert_failures block (before ++ [s]) rest
  end.

(** What a walk adds to the store and to the log: the statements [new]
    and one line for each of them the store refuses. *)
Definition accounted (block : Block) (w w' : World) : Prop :=
  exists new,
    executed w' = executed w ++ new
    /\ logged w' = logged w ++ insert_failures block (executed w) new.

(** [blockImportHook] as it was before the extraction of internal
    transactions was added: the block row only. *)
Definition blockImportHook0 (block : Block) (traceData : string) (w : World)
  : Run unit :=
  match marshalBlockData block traceData with
  | inr err => Done tt (log_Error w "Failed to marshal block data" block err)
  | inl jsonData =>
    let '(w, err) :=
      if negb (Z.of_nat (String.length traceData) =? 0)%Z then
        Exec Exec_err w
          (InsertBlockData (Number block) (Hash_Hex (Hash block)) jsonData
             (Some traceData))
      else
        Exec Exec_err w
          (InsertBlockData (Number block) (Hash_Hex (Hash block)) jsonData
             None) in
    match err with
    | Some e => Done tt (log_Error w "Failed to insert block data" block e)
    | None => Done tt w
    end
  end.

End Hook0.

End exporter.

(** ** Setting the explorer up *)

Module setup.

(** [strings.SplitN(s, " ", 2)]: the text before the first space and the
    text after it, or the text alone when it holds no space. *)
Fixpoint cut_at_space (s : string) : option (string * string) :=
  match s with
  | EmptyString => None
  | String c s' =>
      if Ascii.eqb c " " then Some (EmptyString, s')
      else '(before, after) ← cut_at_space s'; Some (String c before, after)
  end.

(** Whether a text holds a space. *)
Fixpoint has_space (s : string) : bool :=
  match s with
  | EmptyString => false
  | String c s' => Ascii.eqb c " " || has_space s'
  end.

Definition SplitN2 (s : string) : list string :=
  match cut_at_space s with
  | Some (before, after) => [before; after]
  | None => [s]
  end.

(** The package variable [explorerDb] and whether the three hooks of
    package core are installed. *)
Record Globals (DB : Type) : Type := mkGlobals {
  explorerDb : option DB;
  hooks_installed : bool
}.
Arguments mkGlobals {DB} _ _.
Arguments explorerDb {DB} _.
Arguments hooks_installed {DB} _.

Section Setup.

Variable DB : Type.

(** [os.Open] with [io.Copy]: the content of the file, or the error. *)
Variable readFile : string -> string + error.

(** [sql.Open] and the [Ping] of the handle it returns. *)
Variable sql_Open : string -> string -> DB + error.
Variable Ping : DB -> option error.

(** [strings.TrimSpace] *)
Variable TrimSpace : string -> string.

Definition connect (driverName params : string) (g : Globals DB)
  : Res (Globals DB) :=
  match sql_Open driverName params with
  | inr err => Panic err
  | inl db =>
      match Ping db with
      | Some err => Panic err
      | None => Ok (mkGlobals (Some db) (hooks_installed g))
      end
  end.

Definition SetupExplorerDB (dbParams : string) (g : Globals DB)
  : Res (Globals DB) :=
  if (Z.of_nat (String.length dbParams) =? 0)%Z then Ok g
  else
    match readFile dbParams with
    | inr err => Panic err
    | inl content =>
      let parts := SplitN2 content in
      if (len parts <? 2)%Z then Panic "ExplorerDBParams is invalid"
      else
        (do part0 <- index parts 0;
         do part1 <- index parts 1;
         let prefix := TrimSpace part0 in
         let params := TrimSpace part1 in
         do g <- (if String.prefix "postgres" prefix then
                    connect "postgres" params g
                  else if String.prefix "mysql" prefix then
                    connect "mysql" params g
                  else
                    Panic "ExplorerDBParams is neither postgresql or mysql");
         Ok (mkGlobals (explorerDb g) true))%res
    end.

End Setup.

End setup.

(** ** Sample runs of the tracer, the hook and the set-up *)

Module cases.

(** A tracer that keeps the top call only and collects logs. *)
Definition top_only : native.blockCallsTracer :=
  native.newBlockCallsTracerObject (native.mkConfig true true).

(** A tracer that collects sub-calls and logs. *)
Definition with_logs : native.blockCallsTracer :=
  native.newBlockCallsTracerObject (native.mkConfig false true).

Definition transfer_log : native.Log := native.mkLog 3%N [17%N] [].

(** What runs below a root call: a log of the root, then one sub-call that
    emits a log of its own. *)
Definition inner : list native.callback :=
  [native.CbLog transfer_log;
   native.CbEnter 1 Byte.xf1 2%N 3%N [] 5000%N (Some 3%N);
   native.CbLog transfer_log;
   native.CbExit 1 [] 100%N None false].

(** Callbacks in no order at all: an exit before any entry, a log, an entry
    three levels down. *)
Definition unordered : list native.callback :=
  [native.CbExit 4 [] 0%N None false;
   native.CbLog transfer_log;
   native.CbEnter 3 Byte.xf1 2%N 3%N [] 5000%N (Some 3%N);
   native.CbExit 0 [] 0%N None false].

(** An executed transaction and one that failed validation. *)
Definition executed_tx : collector.transaction :=
  collector.mkTransaction 21000%N sample.plain_call_tx
    (Some (native.mkReceipt 21000%N)) None.

Definition rejected_tx : collector.transaction :=
  collector.mkTransaction 21000%N [] None (Some "nonce too low").

(** A tracer holding the finished stacks of two transactions. *)
Definition finished : native.blockCallsTracer :=
  native.mkTracer
    [[native.zeroFrame; sample.traced 21000%N]; [sample.traced_zero]] []
    (native.mkConfig false false) 0 0 false None.

(** A root call that carries value with a sub-call that carries value,
    and the trace of a block whose first transaction made it. *)
Definition two_transfers : native.callFrame :=
  native.mkCallFrame Byte.xf1 1%N 21000%N 0%N (Some 2%N) [] [] EmptyString
    EmptyString [sample.traced 7%N] [] (Some 9%N).

Definition trace_text : string :=
  sample.json_text
    (native.marshal_callstacks (tf := hexutil.text)
       [[native.zeroFrame; two_transfers]]).

(** A store that refuses every internal transaction. *)
Definition refusing (before : list explorer.Stmt) (s : explorer.Stmt)
  : option error :=
  if explorer.is_internal s then Some "duplicate key" else None.

(** Parameter files, and a database that accepts every connection. *)
Definition newline : string := String (ascii_of_nat 10) EmptyString.

Definition readFile (path : string) : string + error :=
  if String.eqb path "postgres.conf" then
    inl ("postgresql user=u dbname=d" ++ newline)%string
  else if String.eqb path "no_space.conf" then inl ("mysql" ++ newline)%string
  else inr "open: no such file or directory".

Definition sql_Open (driverName params : string)
  : string * string + error :=
  inl (driverName, params).

Definition Ping (db : string * string) : option error := None.

Definition is_space (c : ascii) : bool :=
  let n := N_of_ascii c in
  (n =? 32)%N || ((9 <=? n)%N && (n <=? 13)%N).

Fixpoint trim_left (s : string) : string :=
  match s with
  | EmptyString => EmptyString
  | String c s' => if is_space c then trim_left s' else s
  end.

Fixpoint trim_right (s : string) : string :=
  match s with
  | EmptyString => EmptyString
  | String c s' =>
      match trim_right s' with
      | EmptyString => if is_space c then EmptyString else String c EmptyString
      | kept => String c kept
      end
  end.

Definition TrimSpace (s : string) : string := trim_right (trim_left s).

End cases.

(** * Properties *)

(** ** Slices *)

Lemma index_snoc {A} (s : list A) (x : A) :
  index (s ++ [x]) (len (s ++ [x]) - 1) = Ok x.
Proof.
  unfold index, len. rewrite length_app. simpl.
  replace (Z.of_nat (length s + 1) - 1)%Z with (Z.of_nat (length s)) by lia.
  destruct (Z.ltb_spec (Z.of_nat (length s)) 0); [lia|].
  rewrite Nat2Z.id, lookup_app_r by lia.
  by rewrite Nat.sub_diag.
Qed.

Lemma index_in_range {A} (s : list A) (i : Z) :
  (0 <= i < len s)%Z -> exists x, index s i = Ok x /\ s !! Z.to_nat i = Some x.
Proof.
  unfold index, len. intros [H0 H1].
  destruct (Z.ltb_spec i 0); [lia|].
  destruct (lookup_lt_is_Some_2 s (Z.to_nat i)) as [x Hx]; [lia|].
  exists x. by rewrite Hx.
Qed.

Lemma length_store {A} (s : list A) i x : length (store s i x) = length s.
Proof. unfold store. by rewrite length_insert. Qed.

Lemma two_on_top {A} (s : list A) :
  (2 <= length s)%nat -> exists below p c, s = below ++ [p; c].
Proof.
  intros Hl.
  destruct s as [|c s _] using rev_ind; [simpl in Hl; lia|].
  destruct s as [|p s _] using rev_ind.
  { simpl in Hl. lia. }
  exists s, p, c. by rewrite <- app_assoc.
Qed.

(** ** The tracer *)

Module Tracer.
Import native.

Section Facts.

Variable processOutput : callFrame -> bytes -> option error -> bool -> callFrame.
Variable clearFailedLogs : callFrame -> bool -> callFrame.
Variable json_encode : json -> string + error.
Context {tf : TextForms}.

#[local] Abbreviation OnExit := (native.OnExit processOutput).
#[local] Abbreviation OnTxEnd := (native.OnTxEnd clearFailedLogs).
#[local] Abbreviation GetResult := (native.GetResult json_encode).
#[local] Abbreviation deliver := (native.deliver processOutput).
#[local] Abbreviation run := (native.run processOutput).
#[local] Abbreviation run_tx := (native.run_tx processOutput clearFailedLogs).


Lemma same_block_refl t : same_block t t.
Proof. by repeat split. Qed.

Lemma same_block_trans t1 t2 t3 :
  same_block t1 t2 -> same_block t2 t3 -> same_block t1 t3.
Proof. unfold same_block. intros (?&?&?&?) (?&?&?&?). repeat split; congruence. Qed.

Lemma OnEnter_same_block t d typ from to input gas value :
  same_block t (OnEnter t d typ from to input gas value).
Proof.
  unfold OnEnter. simpl.
  destruct (OnlyTopCall (config t) && (0 <? d)%Z); [by repeat split|].
  destruct (interrupt t); by repeat split.
Qed.

(** [OnExit] returns in every state, with at most one frame fewer on the
    stack and never an empty stack out of a non-empty one. *)
Lemma OnExit_returns t d output gasUsed err reverted :
  exists t', OnExit t d output gasUsed err reverted = Ok t'
             /\ same_block t t'
             /\ (length (callstack t') <= length (callstack t))%nat
             /\ (1 <= length (callstack t) -> 1 <= length (callstack t'))%nat.
Proof.
  unfold native.OnExit.
  destruct (Z.eqb_spec d 0) as [->|Hd].
  - unfold captureEnd.
    destruct (Z.eqb_spec (len (callstack t)) 1) as [H1|H1]; simpl.
    + destruct (index_in_range (callstack t) 0) as (x & -> & _); [lia|].
      simpl. eexists; split; [done|].
      split; [by repeat split|]. simpl. rewrite length_store. lia.
    + eexists; split; [done|]. split; [apply same_block_refl|lia].
  - simpl. destruct (OnlyTopCall (config t)).
    { eexists; split; [done|]. split; [by repeat split|simpl; lia]. }
    destruct (Z.leb_spec (len (callstack t)) 1) as [Hs|Hs].
    { eexists; split; [done|]. split; [by repeat split|simpl; lia]. }
    destruct (index_in_range (callstack t) (len (callstack t) - 1))
      as (c & -> & _); [lia|].
    simpl.
    set (stack := take _ _).
    assert (Hlen : length stack = (length (callstack t) - 1)%nat).
    { unfold stack, len in *. rewrite length_take. lia. }
    destruct (index_in_range stack (len (callstack t) - 1 - 1))
      as (p & -> & _); [unfold len in *; lia|].
    simpl. eexists; split; [done|].
    split; [by repeat split|]. simpl. rewrite length_store, Hlen.
    unfold len in Hs. lia.
Qed.

(** With two frames or more on the stack and sub-calls collected, an exit
    below depth 0 pops the top frame, completes it and nests it under the
    frame below, whatever the interruption flag says. *)
Lemma OnExit_pops t d output gasUsed err reverted below parent call :
  callstack t = below ++ [parent; call] ->
  d <> 0%Z ->
  OnlyTopCall (config t) = false ->
  OnExit t d output gasUsed err reverted
  = Ok (with_callstack (with_depth t (d - 1))
          (below ++ [set_Calls parent
                       (Calls parent
                        ++ [processOutput (set_GasUsed call gasUsed)
                              output err reverted])])).
Proof.
  intros Hcs Hd Htop. unfold native.OnExit.
  destruct (Z.eqb_spec d 0) as [?|_]; [done|].
  simpl. rewrite Htop, Hcs.
  assert (Hl : len (below ++ [parent; call])
               = (Z.of_nat (length below) + 2)%Z).
  { unfold len. rewrite length_app. simpl. lia. }
  destruct (Z.leb_spec (len (below ++ [parent; call])) 1); [lia|].
  replace (below ++ [parent; call]) with ((below ++ [parent]) ++ [call])
    by (by rewrite <- app_assoc).
  rewrite index_snoc. simpl.
  assert (Ht : take (Z.to_nat (len ((below ++ [parent]) ++ [call]) - 1))
                 ((below ++ [parent]) ++ [call]) = below ++ [parent]).
  { apply take_app_length'. unfold len.
    rewrite !length_app. simpl. lia. }
  rewrite Ht.
  replace (len ((below ++ [parent]) ++ [call]) - 1)%Z
    with (len (below ++ [parent])).
  2:{ unfold len. rewrite !length_app. simpl. lia. }
  rewrite index_snoc. simpl. do 2 f_equal.
  unfold store.
  replace (Z.to_nat (len (below ++ [parent]) - 1)) with (length below + 0)%nat.
  2:{ unfold len. rewrite length_app. simpl. lia. }
  by rewrite insert_app_r.
Qed.

Lemma OnLog_open t l :
  (1 <= length (callstack t))%nat ->
  exists t', OnLog t l = Ok t' /\ same_block t t'
             /\ length (callstack t') = length (callstack t)
             /\ depth t' = depth t.
Proof.
  intros Hopen. unfold OnLog.
  destruct (WithLog (config t)); simpl;
    [|eexists; split; [done|]; by repeat split].
  destruct (OnlyTopCall (config t) && (0 <? depth t)%Z);
    [eexists; split; [done|]; by repeat split|].
  destruct (interrupt t); [eexists; split; [done|]; by repeat split|].
  destruct (index_in_range (callstack t) (len (callstack t) - 1))
    as (c & -> & _); [unfold len; lia|].
  simpl. eexists; split; [done|].
  split; [by repeat split|]. simpl. by rewrite length_store.
Qed.

(** Under a pending stop a log is dropped before the stack is looked at. *)
Lemma OnLog_interrupted t l : interrupt t = true -> OnLog t l = Ok t.
Proof.
  intros Hi. unfold OnLog. rewrite Hi.
  destruct (WithLog (config t)); [|done]. simpl.
  by destruct (OnlyTopCall (config t) && (0 <? depth t)%Z).
Qed.

Lemma OnEnter_length t d typ from to input gas value :
  (length (callstack t)
   <= length (callstack (OnEnter t d typ from to input gas value)))%nat.
Proof.
  unfold OnEnter. simpl.
  destruct (OnlyTopCall (config t) && (0 <? d)%Z); [done|].
  destruct (interrupt t); [done|]. simpl. rewrite length_app. lia.
Qed.

Lemma run_app t cbs1 cbs2 :
  run t (cbs1 ++ cbs2) = (do t' <- run t cbs1; run t' cbs2)%res.
Proof.
  revert t. induction cbs1 as [|c cbs1 IH]; intros t; [done|].
  simpl. destruct (deliver t c); simpl; [apply IH|done].
Qed.

(** Once a transaction has started, no callback panics, whatever the order
    in which callbacks arrive, and the stack never runs empty. *)
Lemma run_open t cbs :
  (1 <= length (callstack t))%nat ->
  exists t', run t cbs = Ok t' /\ same_block t t'
             /\ (1 <= length (callstack t'))%nat.
Proof.
  revert t. induction cbs as [|c cbs IH]; intros t Hopen.
  { exists t. split; [done|]. split; [apply same_block_refl|done]. }
  assert (exists t1, deliver t c = Ok t1 /\ same_block t t1
                     /\ (1 <= length (callstack t1))%nat)
    as (t1 & Hd & Hsb & Hopen1).
  { destruct c as [d typ from to input gas value|d o g e r|l]; simpl.
    - eexists; split; [done|]. split; [apply OnEnter_same_block|].
      pose proof (OnEnter_length t d typ from to input gas value). lia.
    - destruct (OnExit_returns t d o g e r) as (t1 & -> & ? & _ & ?).
      exists t1. auto.
    - destruct (OnLog_open t l Hopen) as (t1 & -> & ? & Hl & _).
      exists t1. split; [done|]. split; [done|]. lia. }
  destruct (IH t1 Hopen1) as (t' & Hr & Hsb' & Hopen').
  exists t'. simpl. rewrite Hd. simpl.
  split; [done|]. split; [by eapply same_block_trans|done].
Qed.

(** A well-nested run of scopes below the root brings the stack back to the
    height it started from: every frame entered has been popped. *)
Lemma scopes_balanced d cbs :
  scopes d cbs ->
  forall t,
    (0 < d)%Z -> interrupt t = false -> (1 <= length (callstack t))%nat ->
    exists t', run t cbs = Ok t' /\ same_block t t'
               /\ length (callstack t') = length (callstack t).
Proof.
  induction 1 as [d|d l rest Hrest IH
                 |d typ from to input gas value inner output gasUsed err
                    reverted rest Hinner IHinner Hrest IHrest];
    intros t Hd Hint Hopen.
  - exists t. split; [done|]. split; [apply same_block_refl|done].
  - destruct (OnLog_open t l Hopen) as (t1 & Hl & Hsb & Hlen & _).
    destruct (IH t1) as (t' & Hr & Hsb' & Hlen'); [done| |lia|].
    { destruct Hsb as (_&_&->&_). done. }
    exists t'. simpl. rewrite Hl. simpl.
    split; [done|]. split; [by eapply same_block_trans|lia].
  - simpl. rewrite run_app.
    set (t1 := OnEnter t d typ from to input gas value).
    pose proof (OnEnter_same_block t d typ from to input gas value) as Hsb1.
    fold t1 in Hsb1.
    assert (Hint1 : interrupt t1 = false) by (destruct Hsb1 as (_&_&->&_); done).
    pose proof (OnEnter_length t d typ from to input gas value) as Hlen1.
    fold t1 in Hlen1.
    destruct (IHinner t1) as (t2 & Hr2 & Hsb2 & Hlen2); [lia|done|lia|].
    rewrite Hr2. simpl.
    assert (Hcfg : config t2 = config t).
    { destruct Hsb1 as (_&?&_), Hsb2 as (_&?&_). congruence. }
    assert (exists t3, OnExit t2 d output gasUsed err reverted = Ok t3
                       /\ same_block t2 t3
                       /\ length (callstack t3) = length (callstack t))
      as (t3 & He & Hsb3 & Hlen3).
    { destruct (OnlyTopCall (config t)) eqn:Htop.
      - (* only the top call is kept: nothing was pushed, nothing is popped *)
        assert (callstack t1 = callstack t) as Hsame.
        { unfold t1, OnEnter. simpl. rewrite Htop.
          destruct (Z.ltb_spec 0 d); [done|lia]. }
        unfold native.OnExit.
        destruct (Z.eqb_spec d 0); [lia|]. simpl. rewrite Hcfg, Htop.
        eexists; split; [done|]. split; [by repeat split|].
        simpl. congruence.
      - assert (Hpush : callstack t1 = callstack t ++
                  [mkCallFrame typ from (if (d =? 0)%Z then gasLimit t else gas)
                     0 (Some to) input [] EmptyString EmptyString [] [] value]).
        { unfold t1, OnEnter. simpl. rewrite Htop, Hint. done. }
        assert (Hlen : length (callstack t2) = S (length (callstack t))).
        { rewrite Hlen2, Hpush, length_app. simpl. lia. }
        destruct (two_on_top (callstack t2)) as (below & p & c & Hcs2);
          [lia|].
        erewrite OnExit_pops; [|exact Hcs2|lia|by rewrite Hcfg].
        eexists; split; [done|]. split; [by repeat split|].
        simpl. rewrite Hcs2 in Hlen. rewrite !length_app in *.
        simpl in *. lia. }
    rewrite He. simpl.
    destruct (IHrest t3) as (t' & Hr & Hsb' & Hlen'); [done| |lia|].
    { destruct Hsb3 as (_&_&?&_), Hsb2 as (_&_&?&_). congruence. }
    exists t'. split; [done|].
    split; [|lia].
    eapply same_block_trans; [exact Hsb1|].
    eapply same_block_trans; [exact Hsb2|].
    by eapply same_block_trans.
Qed.

(** *** Stack discipline over one transaction *)

(** The callbacks of an executed transaction leave exactly the placeholder
    frame of [OnTxStart] and the root frame on the stack. *)
Lemma tx_body_leaves_root t txGas cbs :
  tx_body cbs ->
  exists t', run (OnTxStart t txGas) cbs = Ok t'
             /\ same_block (OnTxStart t txGas) t'
             /\ length (callstack t') = 2%nat.
Proof.
  intros [typ from to input gas value inner output gasUsed err reverted Hin].
  simpl. rewrite run_app.
  set (t1 := OnEnter _ _ _ _ _ _ _ _).
  assert (Hcs1 : length (callstack t1) = 2%nat).
  { unfold t1, OnEnter. simpl. by rewrite andb_false_r. }
  pose proof (OnEnter_same_block (OnTxStart t txGas) 0 typ from to input gas
                value) as Hsb1. fold t1 in Hsb1.
  destruct (scopes_balanced 1 inner Hin t1) as (t2 & -> & Hsb2 & Hlen2);
    [lia|by destruct Hsb1 as (_&_&->&_)|lia|].
  simpl. unfold native.OnExit, captureEnd. simpl.
  destruct (Z.eqb_spec (len (callstack t2)) 1) as [H1|_];
    [unfold len in H1; lia|].
  simpl. exists t2. split; [done|].
  split; [by eapply same_block_trans|lia].
Qed.

(** *** Interruption *)

Lemma OnExit_with_depth t x d output gasUsed err reverted :
  OnExit (with_depth t x) d output gasUsed err reverted
  = mapRes (fun t' => with_depth t' (if (d =? 0)%Z then x else (d - 1)%Z))
      (OnExit t d output gasUsed err reverted).
Proof.
  unfold native.OnExit, captureEnd. simpl.
  destruct (d =? 0)%Z.
  - destruct (negb _); [done|]. by destruct (index _ _).
  - destruct (OnlyTopCall _); [done|].
    destruct (_ <=? 1)%Z; [done|].
    destruct (index (callstack t) _); [|done]. simpl.
    by destruct (index _ _).
Qed.

(** An exit does the same work whether or not a stop is pending. *)
Lemma OnExit_Stop t reason d output gasUsed err reverted :
  OnExit (Stop t reason) d output gasUsed err reverted
  = mapRes (fun t' => Stop t' reason) (OnExit t d output gasUsed err reverted).
Proof.
  unfold native.OnExit, captureEnd. simpl.
  destruct (d =? 0)%Z.
  - destruct (negb _); [done|]. by destruct (index _ _).
  - destruct (OnlyTopCall _); [done|].
    destruct (_ <=? 1)%Z; [done|].
    destruct (index (callstack t) _); [|done]. simpl.
    by destruct (index _ _).
Qed.

Lemma OnEnter_interrupted t d typ from to input gas value :
  interrupt t = true ->
  OnEnter t d typ from to input gas value = with_depth t d.
Proof.
  intros Hi. unfold OnEnter. simpl. rewrite Hi.
  by destruct (OnlyTopCall (config t) && (0 <? d)%Z).
Qed.


Lemma run_interrupted cbs :
  forall t1 t2,
    interrupt t1 = true -> upto_depth t1 t2 ->
    exists t1' t2',
      run t1 cbs = Ok t1' /\ run t2 (filter is_exit cbs) = Ok t2'
      /\ same_block t1 t1' /\ upto_depth t1' t2'.
Proof.
  induction cbs as [|c cbs IH]; intros t1 t2 Hi Hu.
  { exists t1, t2. repeat split; done. }
  destruct c as [d typ from to input gas value|d o g e r|l]; simpl.
  - rewrite OnEnter_interrupted by done.
    destruct (IH (with_depth t1 d) t2) as (a & b & Ha & Hb & Hsb & Hu');
      [done|exact Hu|].
    exists a, b. repeat split; try done; by destruct Hsb as (?&?&?&?).
  - destruct (OnExit_returns t1 d o g e r) as (t1' & He & Hsb & _).
    rewrite He. simpl.
    assert (He2 : OnExit t2 d o g e r
                  = Ok (with_depth t1'
                          (if (d =? 0)%Z then depth t2 else (d - 1)%Z))).
    { unfold upto_depth in Hu. rewrite Hu, OnExit_with_depth, He. done. }
    rewrite He2. simpl.
    destruct (IH t1' (with_depth t1' (if (d =? 0)%Z then depth t2 else (d - 1)%Z)))
      as (a & b & Ha & Hb & Hsb' & Hu');
      [by destruct Hsb as (_&_&->&_)|done|].
    exists a, b. split; [done|]. split; [done|].
    split; [by eapply same_block_trans|done].
  - rewrite OnLog_interrupted by done. simpl.
    destruct (IH t1 t2) as (a & b & Ha & Hb & Hsb & Hu'); [done|done|].
    by exists a, b.
Qed.

(** A scope entered under a pending stop pushes no frame, and its exit
    does what the exit alone does. *)
Lemma scope_under_stop t err d typ from to input gas value output gasUsed e
    reverted :
  d <> 0%Z ->
  run (Stop t err)
    [CbEnter d typ from to input gas value;
     CbExit d output gasUsed e reverted]
  = OnExit (Stop t err) d output gasUsed e reverted.
Proof.
  intros Hd. simpl. rewrite OnEnter_interrupted by done.
  rewrite OnExit_with_depth.
  destruct (Z.eqb_spec d 0) as [?|_]; [done|].
  unfold native.OnExit. destruct (Z.eqb_spec d 0) as [?|_]; [done|].
  simpl. destruct (OnlyTopCall (config t)); [done|].
  destruct (len (callstack t) <=? 1)%Z; [done|].
  destruct (index (callstack t) _); [|done]. simpl.
  by destruct (index _ _).
Qed.


End Facts.



(** C7, at the failing input: a tracer that collects logs receives [OnLog]
    while no frame is open (before any [OnTxStart], or after an [OnTxEnd]
    that emptied the stack); the callback indexes the empty stack at
    [len - 1] and panics. *)
Theorem OnLog_without_open_frame_panics :
  let collecting := newBlockCallsTracerObject (mkConfig false true) in
  OnLog collecting (mkLog 7%N [] []) = Panic "index out of range"
  /\ (exists ended,
        run_tx sample.processOutput sample.clearFailedLogs collecting 21000
          [root_enter; root_exit] (Some (mkReceipt 21000)) None = Ok ended
        /\ callstack ended = []
        /\ OnLog ended (mkLog 7%N [] []) = Panic "index out of range").
Proof.
  split; [reflexivity|].
  eexists. split; [reflexivity|]. split; reflexivity.
Qed.

(** [OnTxEnd] without error and without a started transaction panics as
    well: it writes to [callstack[0]]. *)
Lemma OnTxEnd_without_start_panics :
  OnTxEnd sample.clearFailedLogs fresh (Some (mkReceipt 21000)) None
  = Panic "index out of range".
Proof. reflexivity. Qed.


End Tracer.

(** ** The explorer *)

Module Explorer.
Import explorer.

Lemma callFrame0_ind' (P : callFrame0 -> Prop) :
  (forall from to calls value ty,
     Forall P calls -> P (mkCallFrame0 from to calls value ty)) ->
  forall f, P f.
Proof.
  intros H. fix IH 1. intros [from to calls value ty]. apply H.
  refine ((fix all (l : list callFrame0) : Forall P l :=
             match l with
             | [] => _
             | x :: l' => _
             end) calls).
  - constructor.
  - constructor; [apply IH|apply all].
Qed.

Lemma walk_eq f :
  walk f
  = if negb (String.eqb (TypeString f) "Call") || (From f =? emptyAddress)%N
    then ([], false)
    else match To f, Value f with
         | None, _ => ([], false)
         | Some _, None => ([], true)
         | Some _, Some v =>
             if (v =? 0)%N then ([], false)
             else let '(below, panicked) := walk_calls (Calls f) in
                  (f :: below, panicked)
         end.
Proof. destruct f. reflexivity. Qed.

(** The walk only ever reaches frames of the tree, and inserts only for
    frames that pass the test. *)
Lemma walk_sound f :
  Forall (fun g => qualifies g = true /\ g ∈ frames_of f) (fst (walk f)).
Proof.
  induction f as [from to calls value ty IH] using callFrame0_ind'.
  rewrite walk_eq. simpl.
  destruct (negb (String.eqb ty "Call") || (from =? emptyAddress)%N) eqn:Hg;
    [constructor|].
  destruct to as [to|]; [|constructor].
  destruct value as [v|]; [|constructor].
  destruct (N.eqb_spec v 0); [constructor|].
  apply orb_false_elim in Hg as [Hty Hfrom].
  apply negb_false_iff in Hty.
  assert (Hcalls : Forall (fun g => qualifies g = true
                                    /\ g ∈ flat_map frames_of calls)
                     (fst (walk_calls calls))).
  { clear -IH. induction IH as [|call calls Hcall _ IHcalls]; [constructor|].
    simpl. destruct (walk call) as [fs panicked]. simpl in Hcall.
    assert (Hfs : Forall (fun g => qualifies g = true
                           /\ g ∈ frames_of call ++ flat_map frames_of calls) fs).
    { eapply Forall_impl; [exact Hcall|]. simpl. intros g [? ?].
      split; [done|]. apply elem_of_app. by left. }
    destruct panicked; [exact Hfs|].
    destruct (walk_calls calls) as [fs' panicked']. simpl in *.
    apply Forall_app. split; [exact Hfs|].
    eapply Forall_impl; [exact IHcalls|]. simpl. intros g [? ?].
    split; [done|]. apply elem_of_app. by right. }
  destruct (walk_calls calls) as [below panicked]. simpl in *.
  constructor.
  - split; [|by left]. unfold qualifies. simpl. rewrite Hty, Hfrom. simpl.
    destruct (N.ltb_spec 0 v); [done|lia].
  - eapply Forall_impl; [exact Hcalls|]. simpl. intros g [? ?].
    split; [done|]. by right.
Qed.

Lemma walk_root f : qualifies f = true -> exists below, fst (walk f) = f :: below.
Proof.
  unfold qualifies. rewrite walk_eq.
  destruct (String.eqb (TypeString f) "Call"); [|done]. simpl.
  destruct (From f =? emptyAddress)%N; [done|]. simpl.
  destruct (To f); [|done]. destruct (Value f) as [v|]; [|done]. simpl.
  destruct (N.eqb_spec v 0) as [->|_]; [done|].
  destruct (walk_calls (Calls f)). eauto.
Qed.

Lemma walk_not_qualifying f : qualifies f = false -> fst (walk f) = [].
Proof.
  unfold qualifies. rewrite walk_eq.
  destruct (String.eqb (TypeString f) "Call"); [|done]. simpl.
  destruct (From f =? emptyAddress)%N; [done|]. simpl.
  destruct (To f); [|done]. destruct (Value f) as [v|]; [|done]. simpl.
  destruct (N.eqb_spec v 0) as [->|Hv]; [done|].
  destruct (N.ltb_spec 0 v); [done|lia].
Qed.

Section Facts.

Context {tf : TextForms}.
Variable Hash_Hex : N -> string.
Variable Address_Hex : Address -> string.
Variable Exec_err : list Stmt -> Stmt -> option error.
Variable json_parse : string -> option json.
Variable marshalBlockData : Block -> string -> string + error.

#[local] Abbreviation navigateCallFrame :=
  (explorer.navigateCallFrame Hash_Hex Address_Hex Exec_err).
#[local] Abbreviation range_calls :=
  (explorer.range_calls Hash_Hex Address_Hex Exec_err).
#[local] Abbreviation range_callstack :=
  (explorer.range_callstack Hash_Hex Address_Hex Exec_err).
#[local] Abbreviation range_callstacks :=
  (explorer.range_callstacks Hash_Hex Address_Hex Exec_err).
#[local] Abbreviation blockImportHook :=
  (explorer.blockImportHook Hash_Hex Address_Hex Exec_err json_parse
     marshalBlockData).
#[local] Abbreviation record := (explorer.record Hash_Hex Address_Hex).
#[local] Abbreviation records := (explorer.records Hash_Hex Address_Hex).
#[local] Abbreviation Exec := (explorer.Exec Exec_err).
#[local] Abbreviation refines := (explorer.refines Hash_Hex Address_Hex).
#[local] Abbreviation from_stack := (explorer.from_stack Hash_Hex Address_Hex).

Lemma navigateCallFrame_eq block ix c f w :
  navigateCallFrame block ix c f w
  = if negb (String.eqb (TypeString f) "Call") || (From f =? emptyAddress)%N
    then Done c w
    else
      match To f with
      | None => Done c w
      | Some to =>
        match Value f with
        | None => Crash "nil pointer dereference" w
        | Some value =>
          if (value =? 0)%N then Done c w
          else
            match index (Transactions block) ix with
            | Panic msg => Crash msg w
            | Ok tx =>
              let '(w1, err) := Exec w (record block tx ix c f) in
              let w2 := match err with
                        | Some e =>
                            log_Error w1
                              "Failed to insert internal transaction" block e
                        | None => w1
                        end in
              range_calls block ix (Calls f) (c + 1) w2
            end
        end
      end.
Proof.
  destruct f as [from to calls value ty].
  cbn [explorer.navigateCallFrame TypeString From To Value Calls].
  destruct (negb (String.eqb ty "Call") || (from =? emptyAddress)%N); [done|].
  destruct to; [|done]. destruct value as [v|]; [|done].
  destruct (v =? 0)%N; [done|].
  destruct (index (Transactions block) ix); [|done].
  unfold explorer.Exec, explorer.record.
  cbn [TypeString From To Value Calls].
  generalize (c + 1)%Z.
  match goal with |- forall z, _ ?w1 = _ => generalize w1 end.
  induction calls as [|call calls IH]; intros w0 c0; [done|].
  cbn [explorer.range_calls].
  destruct (navigateCallFrame block ix c0 call w0); [|done].
  apply IH.
Qed.

Lemma records_app block tx ix c fs fs' :
  records block tx ix c (fs ++ fs')
  = records block tx ix c fs ++ records block tx ix (c + len fs) fs'.
Proof.
  revert c. induction fs as [|f fs IH]; intros c; simpl.
  - unfold len. simpl. by rewrite Z.add_0_r.
  - rewrite IH. do 3 f_equal. unfold len. simpl. lia.
Qed.

Lemma navigate_refines block ix tx :
  index (Transactions block) ix = Ok tx ->
  forall f c w, refines block tx ix c w (navigateCallFrame block ix c f w) (walk f).
Proof.
  intros Hidx.
  induction f as [from to calls value ty IH] using callFrame0_ind'.
  intros c w. rewrite navigateCallFrame_eq, walk_eq. simpl.
  assert (Hstay : refines block tx ix c w (Done c w) ([], false)).
  { unfold refines, len. simpl. rewrite app_nil_r.
    split; [done|]. split; [done|]. intros ? ? [= <- _]. lia. }
  destruct (negb (String.eqb ty "Call") || (from =? emptyAddress)%N);
    [exact Hstay|].
  destruct to as [to|]; [|exact Hstay].
  destruct value as [v|].
  2:{ unfold refines. simpl. rewrite app_nil_r. by repeat split. }
  destruct (v =? 0)%N; [exact Hstay|].
  rewrite Hidx. simpl.
  set (s := record block tx ix c _).
  set (w2 := match Exec_err (executed w) s with Some _ => _ | None => _ end).
  assert (Hw2 : executed w2 = executed w ++ [s]).
  { unfold w2. by destruct (Exec_err _ _). }
  assert (Hloop : forall c0 w0,
            refines block tx ix c0 w0 (range_calls block ix calls c0 w0)
              (walk_calls calls)).
  { clear -IH. induction IH as [|call calls Hcall _ IHcalls]; intros c0 w0.
    - unfold refines, len. simpl. rewrite app_nil_r.
      split; [done|]. split; [done|]. intros ? ? [= <- _]. lia.
    - simpl. destruct (Hcall c0 w0) as (Hex & Hdone & Hc).
      destruct (walk call) as [fs panicked]. simpl in *.
      destruct (navigateCallFrame block ix c0 call w0) as [c1 w1|msg w1];
        simpl in *.
      + symmetry in Hdone. apply negb_true_iff in Hdone. subst panicked.
        specialize (Hc _ _ eq_refl). subst c1.
        destruct (IHcalls (c0 + len fs)%Z w1) as (Hex' & Hdone' & Hc').
        destruct (walk_calls calls) as [fs' panicked']. simpl in *.
        unfold refines. simpl. rewrite records_app, Hex', Hex, app_assoc.
        split; [done|]. split; [done|].
        intros c' w' Hr. rewrite (Hc' _ _ Hr). unfold len.
        rewrite length_app. lia.
      + destruct panicked; [|done]. unfold refines. simpl.
        split; [done|]. split; [done|]. done. }
  destruct (Hloop (c + 1)%Z w2) as (Hex & Hdone & Hc).
  destruct (walk_calls calls) as [below panicked]. simpl in *.
  unfold refines. simpl. rewrite Hex, Hw2, <- app_assoc. simpl.
  split; [done|]. split; [done|].
  intros c' w' Hr. rewrite (Hc _ _ Hr). unfold len. simpl. lia.
Qed.

Lemma navigate_without_tx block ix msg :
  index (Transactions block) ix = Panic msg ->
  forall f c w,
    executed (world_of (navigateCallFrame block ix c f w)) = executed w.
Proof.
  intros Hidx f c w. rewrite navigateCallFrame_eq, Hidx.
  destruct (negb _ || _); [done|].
  destruct (To f); [|done]. destruct (Value f) as [v|]; [|done].
  by destruct (v =? 0)%N.
Qed.

(** Whether the walk returns is settled by the block and the frame alone:
    neither the store's answers nor what was executed before weigh in. *)
Lemma navigate_returns block ix f c w :
  is_Done (navigateCallFrame block ix c f w) = walk_returns block ix f.
Proof.
  unfold walk_returns.
  destruct (index (Transactions block) ix) as [tx|msg] eqn:Hidx.
  - by destruct (navigate_refines block ix tx Hidx f c w) as (_ & -> & _).
  - rewrite navigateCallFrame_eq, walk_eq, Hidx.
    destruct (negb _ || _); [done|].
    destruct (To f); [|done]. destruct (Value f) as [v|]; [|done].
    destruct (v =? 0)%N; [done|].
    by destruct (walk_calls (Calls f)).
Qed.

Lemma elem_of_records block tx ix c fs s :
  s ∈ records block tx ix c fs ->
  exists g c', g ∈ fs /\ (c <= c')%Z /\ s = record block tx ix c' g.
Proof.
  revert c. induction fs as [|f fs IH]; intros c Hs; simpl in Hs.
  { by apply elem_of_nil in Hs. }
  apply elem_of_cons in Hs as [->|Hs].
  - exists f, c. split; [by left|]. split; [lia|done].
  - destruct (IH _ Hs) as (g & c' & Hg & Hc & ->).
    exists g, c'. split; [by right|]. split; [lia|done].
Qed.

(** Every insert of a walk is the insert of a frame of the tree that
    passes the test. *)
Lemma navigate_provenance block ix f c w :
  exists new,
    executed (world_of (navigateCallFrame block ix c f w)) = executed w ++ new
    /\ Forall (from_stack block ix [f]) new.
Proof.
  destruct (index (Transactions block) ix) as [tx|msg] eqn:Hidx.
  - destruct (navigate_refines block ix tx Hidx f c w) as (Hex & _).
    eexists. split; [exact Hex|].
    apply Forall_forall. intros s Hs.
    destruct (elem_of_records _ _ _ _ _ _ Hs) as (g & c' & Hg & _ & ->).
    pose proof (walk_sound f) as Hw.
    rewrite Forall_forall in Hw. destruct (Hw g Hg) as [Hq Hin].
    exists f, g, tx, c'. split; [by left|]. done.
  - exists []. rewrite app_nil_r. split; [|constructor].
    by eapply navigate_without_tx.
Qed.

Lemma from_stack_mono block ix stack stack' s :
  stack ⊆ stack' -> from_stack block ix stack s -> from_stack block ix stack' s.
Proof.
  intros Hsub (root & g & tx & c & Hroot & H).
  exists root, g, tx, c. split; [by apply Hsub|done].
Qed.

Lemma range_callstack_provenance block ix stack w :
  exists new,
    executed (world_of (range_callstack block ix stack w)) = executed w ++ new
    /\ Forall (from_stack block ix stack) new.
Proof.
  revert w. induction stack as [|f stack IH]; intros w; simpl.
  { exists []. by rewrite app_nil_r. }
  destruct (navigate_provenance block ix f 0 w) as (new & Hex & Hall).
  assert (Hall' : Forall (from_stack block ix (f :: stack)) new).
  { eapply Forall_impl; [exact Hall|]. intros s. apply from_stack_mono.
    intros x Hx. apply list_elem_of_singleton in Hx as ->. by left. }
  destruct (navigateCallFrame block ix 0 f w) as [c' w'|msg w']; simpl in *.
  - destruct (IH w') as (new' & Hex' & Hall'').
    exists (new ++ new'). rewrite Hex', Hex, app_assoc. split; [done|].
    apply Forall_app. split; [done|].
    eapply Forall_impl; [exact Hall''|]. intros s. apply from_stack_mono.
    intros x Hx. by right.
  - by exists new.
Qed.

(** Every insert of the loop over the trace comes from the stack at the
    position it carries as [tx_index]. *)
Lemma range_callstacks_provenance block callstacks :
  forall ix w,
    (0 <= ix)%Z ->
    exists new,
      executed (world_of (range_callstacks block ix callstacks w))
      = executed w ++ new
      /\ Forall (fun s => exists i stack,
                   callstacks !! i = Some stack
                   /\ from_stack block (ix + Z.of_nat i) stack s) new.
Proof.
  induction callstacks as [|stack rest IH]; intros ix w Hix; simpl.
  { exists []. by rewrite app_nil_r. }
  destruct (range_callstack_provenance block ix stack w) as (new & Hex & Hall).
  assert (Hall' : Forall (fun s => exists i stack0,
                            (stack :: rest) !! i = Some stack0
                            /\ from_stack block (ix + Z.of_nat i) stack0 s) new).
  { eapply Forall_impl; [exact Hall|]. intros s Hs.
    exists 0%nat, stack. split; [done|]. by rewrite Z.add_0_r. }
  destruct (range_callstack block ix stack w) as [[] w'|msg w']; simpl in *.
  - destruct (IH (ix + 1)%Z w') as (new' & Hex' & Hall''); [lia|].
    exists (new ++ new'). rewrite Hex', Hex, app_assoc. split; [done|].
    apply Forall_app. split; [done|].
    eapply Forall_impl; [exact Hall''|]. intros s (i & stack0 & Hi & Hs).
    exists (S i), stack0. split; [done|].
    by replace (ix + Z.of_nat (S i))%Z with (ix + 1 + Z.of_nat i)%Z by lia.
  - by exists new.
Qed.

Lemma range_callstack_returns block ix stack w :
  is_Done (range_callstack block ix stack w)
  = forallb (walk_returns block ix) stack.
Proof.
  revert w. induction stack as [|f stack IH]; intros w; simpl; [done|].
  rewrite <- (navigate_returns block ix f 0 w).
  destruct (navigateCallFrame block ix 0 f w); simpl; [apply IH|done].
Qed.

Lemma range_callstacks_returns block callstacks :
  forall ix w,
    is_Done (range_callstacks block ix callstacks w)
    = stacks_return block ix callstacks.
Proof.
  induction callstacks as [|stack rest IH]; intros ix w; simpl; [done|].
  rewrite <- (range_callstack_returns block ix stack w).
  destruct (range_callstack block ix stack w); simpl; [apply IH|done].
Qed.

Lemma records_call_index block tx ix fs :
  forall c,
    Forall (fun s => exists c', stmt_call_index s = Some c' /\ (c <= c')%Z)
      (records block tx ix c fs).
Proof.
  induction fs as [|f fs IH]; intros c; simpl; constructor.
  - exists c. split; [done|lia].
  - eapply Forall_impl; [apply IH|]. simpl. intros s (c' & ? & ?).
    exists c'. split; [done|lia].
Qed.

(** The call indices of one walk are the consecutive numbers from the
    counter on: dense over the inserts, in the order of the inserts. *)
Lemma records_call_indices block tx ix fs :
  forall c,
    stmt_call_index <$> records block tx ix c fs
    = (fun i => Some (c + Z.of_nat i)%Z) <$> seq 0 (length fs).
Proof.
  induction fs as [|f fs IH]; intros c; simpl; [done|].
  rewrite Z.add_0_r. f_equal. rewrite IH, <- seq_shift, <- list_fmap_compose.
  apply list_fmap_ext. intros _ i _. simpl. f_equal. lia.
Qed.

(** C1, as amended. When [navigateCallFrame] is invoked on a frame (with a
    transaction of the block at the stack's position), it inserts a record
    for that frame, as the first statement it executes and under the
    current call index, if and only if the frame's type is Call, its [from]
    is non-zero, its [to] is present (the zero address included) and its
    [value] is present and above zero; and then no other record of the
    invocation carries that call index: exactly one record for the frame. *)
Theorem navigateCallFrame_inserts_iff_qualifies block ix tx c f w :
  index (Transactions block) ix = Ok tx ->
  (qualifies f = true <->
   exists rest,
     executed (world_of (navigateCallFrame block ix c f w))
     = executed w ++ record block tx ix c f :: rest)
  /\ (forall rest,
        executed (world_of (navigateCallFrame block ix c f w))
        = executed w ++ record block tx ix c f :: rest ->
        Forall (fun s => exists c', stmt_call_index s = Some c' /\ (c < c')%Z)
          rest).
Proof.
  intros Hidx.
  destruct (navigate_refines block ix tx Hidx f c w) as (Hex & _).
  split; [split|].
  - intros Hq. destruct (walk_root f Hq) as (below & Hw).
    rewrite Hex, Hw. simpl. eauto.
  - intros (rest & Hrest). rewrite Hex in Hrest.
    apply app_inv_head in Hrest.
    destruct (qualifies f) eqn:Hq; [done|].
    by rewrite (walk_not_qualifying f Hq) in Hrest.
  - intros rest Hrest. rewrite Hex in Hrest. apply app_inv_head in Hrest.
    destruct (fst (walk f)) as [|g below]; [done|].
    apply (f_equal (drop 1)) in Hrest. simpl in Hrest.
    rewrite !drop_0 in Hrest. rewrite <- Hrest.
    eapply Forall_impl; [apply records_call_index|].
    simpl. intros s (c' & ? & ?). exists c'. split; [done|lia].
Qed.

Lemma read_decimal_Big_String v : read_decimal (Big_String v) = Some v.
Proof.
  unfold read_decimal, Big_String.
  rewrite DecimalString.NilZero.usu.
  - simpl. by rewrite DecimalN.Unsigned.of_to.
  - destruct v; [done|]. apply DecimalPos.Unsigned.to_uint_nonnil.
Qed.

Lemma qualifies_Value g :
  qualifies g = true -> exists to v, To g = Some to /\ Value g = Some v /\ (0 < v)%N.
Proof.
  unfold qualifies. intros H.
  apply andb_true_iff in H as [H Hv]. apply andb_true_iff in H as [_ Ht].
  destruct (To g) as [to|]; [|done]. destruct (Value g) as [v|]; [|done].
  exists to, v. split; [done|]. split; [done|]. by apply N.ltb_lt.
Qed.

Lemma producers_all_contributed (txs : list (N * option (list callFrame0))) :
  Forall (fun tx => is_Some (snd tx)) txs ->
  producers txs = fst <$> txs.
Proof.
  induction 1 as [|[h o] txs [stack Ho] _ IH]; [done|].
  simpl in Ho. subst o. cbn. f_equal. exact IH.
Qed.

(** C8, as amended. [tx_index] is the position of the stack in the decoded
    trace and [tx_hash] is the hash of the block's transaction at that same
    position; when every transaction of the block contributed a stack to
    the trace, that transaction is the one whose stack produced the
    record. *)
Theorem record_names_its_transaction block
    (txs : list (N * option (list callFrame0))) w new :
  Transactions block = fst <$> txs ->
  Forall (fun tx => is_Some (snd tx)) txs ->
  executed (world_of (range_callstacks block 0 (trace_of txs) w))
  = executed w ++ new ->
  Forall (fun s => exists i h stack,
            stmt_tx_index s = Some (Z.of_nat i)
            /\ trace_of txs !! i = Some stack
            /\ from_stack block (Z.of_nat i) stack s
            /\ producers txs !! i = Some h
            /\ stmt_tx_hash s = Some (Hash_Hex h)) new.
Proof.
  intros Htxs Hall Hnew.
  destruct (range_callstacks_provenance block (trace_of txs) 0 w)
    as (new' & Hex & Hprov); [lia|].
  rewrite Hex in Hnew. apply app_inv_head in Hnew. subst new'.
  eapply Forall_impl; [exact Hprov|]. simpl.
  intros s (i & stack & Hi & Hfrom).
  destruct Hfrom as (root & g & tx & c & Hroot & Hg & Hq & Hidx & ->).
  exists i, tx, stack. split; [done|]. split; [done|].
  split; [by exists root, g, tx, c|]. split; [|done].
  rewrite producers_all_contributed, <- Htxs by done.
  change (0 + Z.of_nat i)%Z with (Z.of_nat i) in Hidx.
  unfold index in Hidx. destruct (_ <? 0)%Z; [done|].
  rewrite Nat2Z.id in Hidx.
  by destruct (Transactions block !! i) as [h|]; [injection Hidx as ->|].
Qed.

End Facts.

(** *** The hook *)

Section Hook.

Context {tf : TextForms}.
Variable Hash_Hex : N -> string.
Variable Address_Hex : Address -> string.
Variable Exec_err : list Stmt -> Stmt -> option error.
Variable json_parse : string -> option json.
Variable marshalBlockData : Block -> string -> string + error.

#[local] Abbreviation blockImportHook :=
  (explorer.blockImportHook Hash_Hex Address_Hex Exec_err json_parse
     marshalBlockData).

Lemma nonempty_length (s : string) :
  s <> EmptyString -> (Z.of_nat (String.length s) =? 0)%Z = false.
Proof. destruct s; [done|]. intros _. reflexivity. Qed.

(** Whether the hook returns does not depend on the store's answers. *)
Lemma blockImportHook_returns_whatever_the_store Exec_err' block traceData w w' :
  is_Done (explorer.blockImportHook Hash_Hex Address_Hex Exec_err' json_parse
             marshalBlockData block traceData w')
  = is_Done (blockImportHook block traceData w).
Proof.
  unfold explorer.blockImportHook.
  destruct (marshalBlockData block traceData) as [jsonData|e]; [|done].
  destruct (negb _).
  - simpl. destruct (json_Unmarshal json_parse traceData) as [callstacks|];
      [|done].
    by rewrite !range_callstacks_returns.
  - simpl. by destruct (Exec_err' _ _), (Exec_err _ _).
Qed.

(** C9. With the block document marshaled: on empty trace bytes the hook
    executes the one insert of the block row without a trace column, never
    consults the trace reader, and returns; on trace bytes that do not
    decode it executes the one insert of the block row (with the trace
    bytes), logs the decode error, executes no insert of an internal
    transaction, and returns; and whether the hook returns never depends on
    what the store answers to its statements. *)
Theorem blockImportHook_empty_or_undecodable_trace block traceData jsonData w :
  marshalBlockData block traceData = inl jsonData ->
  (traceData = EmptyString ->
   exists w',
     blockImportHook block traceData w = Done tt w'
     /\ executed w'
        = executed w
          ++ [InsertBlockData (Number block) (Hash_Hex (Hash block)) jsonData
                None]
     /\ forall parse',
          explorer.blockImportHook Hash_Hex Address_Hex Exec_err parse'
            marshalBlockData block traceData w
          = blockImportHook block traceData w)
  /\ (traceData <> EmptyString ->
      json_Unmarshal json_parse traceData = None ->
      exists w',
        blockImportHook block traceData w = Done tt w'
        /\ executed w'
           = executed w
             ++ [InsertBlockData (Number block) (Hash_Hex (Hash block))
                   jsonData (Some traceData)]
        /\ mkLogLine "Failed to unmarshal trace data" (Number block)
             (Hash block) unmarshal_error ∈ logged w'
        /\ filter is_internal (executed w') = filter is_internal (executed w))
  /\ (forall Exec_err' w',
        is_Done (explorer.blockImportHook Hash_Hex Address_Hex Exec_err'
                   json_parse marshalBlockData block traceData w')
        = is_Done (blockImportHook block traceData w)).
Proof.
  intros Hjson. split; [|split].
  - intros ->. unfold explorer.blockImportHook. rewrite Hjson. simpl.
    destruct (Exec_err _ _); (eexists; split; [done|]); simpl;
      (split; [done|]); intros parse'; done.
  - intros Hne Hbad. unfold explorer.blockImportHook.
    rewrite Hjson, (nonempty_length _ Hne), Hbad. simpl.
    eexists; split; [done|]. simpl.
    split; [by destruct (Exec_err _ _)|].
    split.
    + apply elem_of_app. left. apply elem_of_app. right. by left.
    + destruct (Exec_err _ _); simpl; by rewrite filter_app, app_nil_r.
  - intros. apply blockImportHook_returns_whatever_the_store.
Qed.

(** C10. When marshaling the block document fails, the hook logs the
    error and returns; it executes no statement at all, so neither a block
    row nor an internal-transaction row is written. *)
Theorem blockImportHook_marshal_failure block traceData err w :
  marshalBlockData block traceData = inr err ->
  blockImportHook block traceData w
  = Done tt
      (mkWorld (executed w)
         (logged w
          ++ [mkLogLine "Failed to marshal block data" (Number block)
                (Hash block) err])).
Proof. intros H. unfold explorer.blockImportHook. by rewrite H. Qed.

End Hook.

(** C1 as stated fails on the [to] address: a call that carries value to
    the zero address does not qualify in the spec's words, and the walk
    inserts its record all the same. *)
Lemma zero_to_address_is_recorded :
  qualifies_spec sample.burn = false
  /\ executed (world_of (sample.navigate sample.block 0 0 sample.burn
                           sample.nothing))
     = [InsertInternalTransaction
          "0x00000000000000000000000000000000000000000000000000000000000000a1"
          7
          "0x00000000000000000000000000000000000000000000000000000000000002bc"
          0 0 "0x0000000000000000000000000000000000000001"
          "0x0000000000000000000000000000000000000000" "5"].
Proof. split; reflexivity. Qed.

Lemma navigateCallFrame_inserts_iff_qualifies_witness :
  index (Transactions sample.block) 0 = Ok 161%N
  /\ ((qualifies sample.nested = true <->
       exists rest,
         executed (world_of (sample.navigate sample.block 0 0
                               sample.nested sample.nothing))
         = executed sample.nothing
           ++ explorer.record sample.Hash_Hex sample.Address_Hex sample.block
                161%N 0 0 sample.nested :: rest)
      /\ (forall rest,
            executed (world_of (sample.navigate sample.block 0 0
                                  sample.nested sample.nothing))
            = executed sample.nothing
              ++ explorer.record sample.Hash_Hex sample.Address_Hex
                   sample.block 161%N 0 0 sample.nested :: rest ->
            Forall (fun s => exists c', stmt_call_index s = Some c' /\ (0 < c')%Z)
              rest)).
Proof.
  split; [reflexivity|].
  apply (navigateCallFrame_inserts_iff_qualifies sample.Hash_Hex
           sample.Address_Hex sample.Exec_err sample.block 0 161%N 0
           sample.nested sample.nothing).
  reflexivity.
Defined.

(** C2, at the failing input: a call without value whose sub-call carries
    value. One frame of the tree qualifies, so the claim expects one record
    with call index 0; the walk returns at the root and never reaches the
    sub-call: no record at all. The same from end to end: the transaction
    is traced, the trace is written out and handed to the hook, which
    inserts the block row and no internal transaction. *)
Theorem value_carrying_call_below_plain_call_is_skipped :
  List.filter qualifies_spec (frames_of sample.plain_call) = [sample.transfer]
  /\ sample.navigate sample.block 0 0 sample.plain_call sample.nothing
     = Done 0%Z sample.nothing
  /\ executed (world_of (sample.walk_trace sample.block 0
                           [[sample.plain_call]] sample.nothing)) = []
  /\ exists t traceData w,
       native.tx_body sample.plain_call_tx
       /\ native.run_tx sample.processOutput sample.clearFailedLogs
            native.fresh 21000 sample.plain_call_tx
            (Some (native.mkReceipt 21000)) None = Ok t
       /\ native.GetResult (tf := hexutil.text) sample.json_encode t
          = (Some traceData, None)
       /\ json_Unmarshal (tf := hexutil.text) sample.json_parse traceData
          = Some [[sample.placeholder; sample.plain_call]]
       /\ sample.import_hook sample.block traceData sample.nothing = Done tt w
       /\ executed w
          = [InsertBlockData 7 (sample.Hash_Hex 700%N) "{}" (Some traceData)].
Proof.
  split; [reflexivity|]. split; [reflexivity|]. split; [reflexivity|].
  eexists _, _, _. split.
  { apply (native.tx_body_root Byte.xf1 1%N 2%N [] 21000%N (Some 0%N)
             [native.CbEnter 1 Byte.xf1 2%N 3%N [] 5000%N (Some 3%N);
              native.CbExit 1 [] 100%N None false]).
    apply (native.scopes_call 1 Byte.xf1 2%N 3%N [] 5000%N (Some 3%N) []);
      constructor. }
  split; [vm_compute; reflexivity|].
  split; [vm_compute; reflexivity|].
  split; [vm_compute; reflexivity|].
  split; vm_compute; reflexivity.
Qed.

(** C8 as stated fails for a block that lists a transaction which
    contributed no stack: the stack of the second transaction sits at
    position 0 of the trace, and its record carries the hash of the block's
    transaction 0, which is not the transaction that produced it. *)
Lemma record_names_the_failed_transaction :
  Transactions sample.block = fst <$> sample.first_failed
  /\ trace_of sample.first_failed = [[sample.transfer]]
  /\ producers sample.first_failed = [162%N]
  /\ executed (world_of (sample.walk_trace sample.block 0
                           (trace_of sample.first_failed) sample.nothing))
     = [explorer.record sample.Hash_Hex sample.Address_Hex sample.block 161%N
          0 0 sample.transfer]
  /\ stmt_tx_hash (explorer.record sample.Hash_Hex sample.Address_Hex
                     sample.block 161%N 0 0 sample.transfer)
     = Some (sample.Hash_Hex 161%N)
  /\ sample.Hash_Hex 161%N <> sample.Hash_Hex 162%N.
Proof. repeat split. discriminate. Qed.

Lemma record_names_its_transaction_witness :
  let new := executed (world_of (sample.walk_trace sample.block 0
                                   (trace_of sample.both_executed)
                                   sample.nothing)) in
  Transactions sample.block = fst <$> sample.both_executed
  /\ Forall (fun tx => is_Some (snd tx)) sample.both_executed
  /\ executed (world_of (sample.walk_trace sample.block 0
                           (trace_of sample.both_executed) sample.nothing))
     = executed sample.nothing ++ new
  /\ Forall (fun s => exists i h stack,
               stmt_tx_index s = Some (Z.of_nat i)
               /\ trace_of sample.both_executed !! i = Some stack
               /\ explorer.from_stack sample.Hash_Hex sample.Address_Hex
                    sample.block (Z.of_nat i) stack s
               /\ producers sample.both_executed !! i = Some h
               /\ stmt_tx_hash s = Some (sample.Hash_Hex h)) new.
Proof.
  intros new.
  assert (Htxs : Transactions sample.block = fst <$> sample.both_executed)
    by reflexivity.
  assert (Hall : Forall (fun tx => is_Some (snd tx)) sample.both_executed)
    by (repeat constructor; eexists; reflexivity).
  assert (Hnew : executed (world_of (sample.walk_trace sample.block 0
                                       (trace_of sample.both_executed)
                                       sample.nothing))
                 = executed sample.nothing ++ new) by reflexivity.
  split; [exact Htxs|]. split; [exact Hall|]. split; [exact Hnew|].
  exact (record_names_its_transaction sample.Hash_Hex sample.Address_Hex
           sample.Exec_err sample.block sample.both_executed sample.nothing
           new Htxs Hall Hnew).
Defined.

Lemma blockImportHook_empty_or_undecodable_trace_witness :
  sample.marshalBlockData sample.block EmptyString = inl "{}"
  /\ sample.marshalBlockData sample.block "[[" = inl "{}"
  /\ "[[" <> EmptyString
  /\ json_Unmarshal (tf := hexutil.text) sample.json_parse "[[" = None
  /\ (exists w',
        sample.import_hook sample.block EmptyString sample.nothing
        = Done tt w'
        /\ executed w'
           = [InsertBlockData 7 (sample.Hash_Hex 700%N) "{}" None])
  /\ (exists w',
        sample.import_hook sample.block "[[" sample.nothing = Done tt w'
        /\ executed w'
           = [InsertBlockData 7 (sample.Hash_Hex 700%N) "{}" (Some "[[")]
        /\ mkLogLine "Failed to unmarshal trace data" 7 700%N unmarshal_error
           ∈ logged w').
Proof.
  assert (H1 : sample.marshalBlockData sample.block EmptyString = inl "{}")
    by reflexivity.
  assert (H2 : sample.marshalBlockData sample.block "[[" = inl "{}")
    by reflexivity.
  assert (H3 : "[[" <> EmptyString) by discriminate.
  assert (H4 : json_Unmarshal (tf := hexutil.text) sample.json_parse "[["
               = None) by reflexivity.
  split; [exact H1|]. split; [exact H2|]. split; [exact H3|].
  split; [exact H4|]. split.
  - destruct (blockImportHook_empty_or_undecodable_trace (tf := hexutil.text)
                sample.Hash_Hex sample.Address_Hex sample.Exec_err
                sample.json_parse sample.marshalBlockData sample.block
                EmptyString "{}" sample.nothing H1) as (Hempty & _).
    destruct (Hempty eq_refl) as (w' & Hw & Hex & _).
    exists w'. split; [exact Hw|exact Hex].
  - destruct (blockImportHook_empty_or_undecodable_trace (tf := hexutil.text)
                sample.Hash_Hex sample.Address_Hex sample.Exec_err
                sample.json_parse sample.marshalBlockData sample.block
                "[[" "{}" sample.nothing H2) as (_ & Hbad & _).
    destruct (Hbad H3 H4) as (w' & Hw & Hex & Hlog & _).
    exists w'. split; [exact Hw|]. split; [exact Hex|exact Hlog].
Defined.

Lemma blockImportHook_marshal_failure_witness :
  sample.marshalBlockData_failing sample.block "[]"
  = inr "json: unsupported value"
  /\ explorer.blockImportHook (tf := hexutil.text) sample.Hash_Hex
       sample.Address_Hex sample.Exec_err sample.json_parse
       sample.marshalBlockData_failing sample.block "[]" sample.nothing
     = Done tt
         (mkWorld []
            [mkLogLine "Failed to marshal block data" 7 700%N
               "json: unsupported value"]).
Proof.
  split; [reflexivity|].
  apply (blockImportHook_marshal_failure (tf := hexutil.text) sample.Hash_Hex
           sample.Address_Hex sample.Exec_err sample.json_parse
           sample.marshalBlockData_failing sample.block "[]"
           "json: unsupported value" sample.nothing).
  reflexivity.
Defined.

End Explorer.

(** ** The hexadecimal text forms *)

Module Hexutil.
Import hexutil.

Lemma digit_value_digit d : (d < 16)%N -> digit_value (digit d) = Some d.
Proof.
  intros Hd. destruct d as [|p]; [done|].
  do 4 (try destruct p as [p|p|]); try done; lia.
Qed.

Lemma value_of_app s1 s2 acc :
  value_of (s1 ++ s2)%string acc = acc' ← value_of s1 acc; value_of s2 acc'.
Proof.
  revert acc. induction s1 as [|c s1 IH]; intros acc; [done|].
  simpl. destruct (digit_value c) as [d|]; [apply IH|done].
Qed.

Lemma length_append (s1 s2 : string) :
  String.length (s1 ++ s2)%string = (String.length s1 + String.length s2)%nat.
Proof. induction s1 as [|c s1 IH]; [done|]. simpl. by rewrite IH. Qed.

Lemma length_fixed w n : String.length (fixed w n) = w.
Proof.
  revert n. induction w as [|w IH]; intros n; [done|].
  simpl. rewrite length_append, IH. simpl. lia.
Qed.

Lemma value_of_fixed w :
  forall n acc,
    value_of (fixed w n) acc
    = Some (acc * 16 ^ N.of_nat w + n mod 16 ^ N.of_nat w)%N.
Proof.
  induction w as [|w IH]; intros n acc.
  - simpl. f_equal. rewrite N.mod_1_r. lia.
  - cbn [fixed]. rewrite value_of_app, IH. cbn [mbind option_bind value_of].
    rewrite digit_value_digit by (apply N.mod_upper_bound; lia).
    cbn [mbind option_bind]. f_equal.
    rewrite Nat2N.inj_succ, N.pow_succ_r'.
    rewrite (N.Div0.mod_mul_r n 16 (16 ^ N.of_nat w)). lia.
Qed.

Lemma strip0x_0x s : strip0x ("0x" ++ s)%string = Some s.
Proof. reflexivity. Qed.

Lemma DecodeFixed_EncodeFixed w n :
  (n < 16 ^ N.of_nat w)%N -> DecodeFixed w (EncodeFixed w n) = Some n.
Proof.
  intros Hn. unfold DecodeFixed, EncodeFixed. rewrite strip0x_0x.
  cbn [mbind option_bind]. rewrite length_fixed, Nat.eqb_refl, value_of_fixed.
  f_equal. rewrite N.mod_small by done. lia.
Qed.

Lemma hexlen_bound n : (n < 16 ^ N.of_nat (hexlen n))%N.
Proof.
  unfold hexlen. rewrite Nat2N.inj_succ, N2Nat.id.
  destruct (N.eq_dec n 0%N) as [->|Hn]; [done|].
  replace 16%N with (2 ^ 4)%N by done. rewrite <- N.pow_mul_r.
  apply N.log2_lt_pow2; [lia|].
  assert (Hm : (N.log2 n mod 4 < 4)%N) by (apply N.mod_upper_bound; lia).
  pose proof (N.Div0.div_mod (N.log2 n) 4) as Hd. lia.
Qed.

Lemma hexlen_256 n : (n < 2 ^ 256)%N -> (hexlen n <= 64)%nat.
Proof.
  intros Hn. unfold hexlen.
  destruct (N.eq_dec n 0%N) as [->|Hn0]; [vm_compute; lia|].
  assert (N.log2 n < 256)%N by (apply N.log2_lt_pow2; [lia|done]).
  assert (N.log2 n / 4 < 64)%N by (apply N.Div0.div_lt_upper_bound; lia).
  lia.
Qed.

Lemma DecodeBig_EncodeBig n : (n < 2 ^ 256)%N -> DecodeBig (EncodeBig n) = Some n.
Proof.
  intros Hn. unfold DecodeBig, EncodeBig. rewrite strip0x_0x.
  cbn [mbind option_bind]. rewrite length_fixed.
  pose proof (hexlen_256 n Hn) as Hl.
  destruct (Nat.eqb_spec (hexlen n) 0) as [H0|_]; [by unfold hexlen in H0|].
  destruct (Nat.ltb_spec 64 (hexlen n)); [lia|].
  cbn [orb]. rewrite value_of_fixed. f_equal.
  rewrite N.mod_small by apply hexlen_bound. lia.
Qed.

#[export] Instance text_laws : TextFormsLaws text.
Proof.
  split.
  - intros a Ha. apply (DecodeFixed_EncodeFixed 40 a). exact Ha.
  - intros v Hv. apply DecodeBig_EncodeBig. exact Hv.
Qed.

End Hexutil.

(** ** The trace round trip *)

Module Trace.
Import trace.

Lemma callFrame_ind' (P : native.callFrame -> Prop) :
  (forall c, Forall P (native.Calls c) -> P c) -> forall c, P c.
Proof.
  intros H. fix IH 1. intros c. apply H. destruct c as [? ? ? ? ? ? ? ? ? calls ? ?].
  simpl.
  refine ((fix all (l : list native.callFrame) : Forall P l :=
             match l with
             | [] => _
             | x :: l' => _
             end) calls).
  - constructor.
  - constructor; [apply IH|apply all].
Qed.

Section Facts.

Context {tf : TextForms} {laws : TextFormsLaws tf}.

#[local] Abbreviation member :=
  (explorer.unmarshal_member
     (explorer.unmarshal_slice
        (fun j => explorer.unmarshal_callFrame0 j explorer.zeroFrame0))).
#[local] Abbreviation members := (explorer.unmarshal_members member).

(** One member at a time. *)
Lemma member_from s f :
  member "from" (JString s) f
  = a ← Address_UnmarshalText s;
    Some (explorer.mkCallFrame0 a (explorer.To f) (explorer.Calls f)
            (explorer.Value f) (explorer.TypeString f)).
Proof. reflexivity. Qed.

Lemma member_to s f :
  member "to" (JString s) f
  = a ← Address_UnmarshalText s;
    Some (explorer.mkCallFrame0 (explorer.From f) (Some a) (explorer.Calls f)
            (explorer.Value f) (explorer.TypeString f)).
Proof. reflexivity. Qed.

Lemma member_calls js f :
  member "calls" (JArray js) f
  = cs ← explorer.unmarshal_elems
           (fun j => explorer.unmarshal_callFrame0 j explorer.zeroFrame0) js;
    Some (explorer.mkCallFrame0 (explorer.From f) (explorer.To f) cs
            (explorer.Value f) (explorer.TypeString f)).
Proof. reflexivity. Qed.

Lemma member_value s f :
  member "value" (JString s) f
  = n ← Big_UnmarshalText s;
    Some (explorer.mkCallFrame0 (explorer.From f) (explorer.To f)
            (explorer.Calls f) (Some n) (explorer.TypeString f)).
Proof. reflexivity. Qed.

Lemma member_type s f :
  member "type" (JString s) f
  = Some (explorer.mkCallFrame0 (explorer.From f) (explorer.To f)
            (explorer.Calls f) (explorer.Value f) s).
Proof. reflexivity. Qed.

(** The members that [callFrame0] does not declare are passed over. *)
Lemma member_passed_over key v f :
  key ∈ ["gas"; "gasUsed"; "input"; "output"; "error"; "revertReason"; "logs"] ->
  member key v f = Some f.
Proof.
  intros Hk. repeat (apply elem_of_cons in Hk as [->|Hk]; [reflexivity|]).
  by apply elem_of_nil in Hk.
Qed.

Lemma members_omitempty_passed_over empty key v ms f :
  key ∈ ["gas"; "gasUsed"; "input"; "output"; "error"; "revertReason"; "logs"] ->
  members (native.omitempty empty key v ++ ms) f = members ms f.
Proof.
  intros Hk. unfold native.omitempty. destruct empty; [done|].
  simpl. by rewrite member_passed_over.
Qed.

Lemma members_cons key v ms f :
  members ((key, v) :: ms) f = f' ← member key v f; members ms f'.
Proof. reflexivity. Qed.

Lemma elems_roundtrip cs :
  Forall (fun c => wf_callFrame c = true ->
                   explorer.unmarshal_callFrame0 (native.MarshalJSON c)
                     explorer.zeroFrame0 = Some (frame0_of c)) cs ->
  forallb wf_callFrame cs = true ->
  explorer.unmarshal_elems
    (fun j => explorer.unmarshal_callFrame0 j explorer.zeroFrame0)
    (map native.MarshalJSON cs)
  = Some (map frame0_of cs).
Proof.
  induction 1 as [|c cs Hc _ IH]; intros Hwf; [done|].
  simpl in Hwf. apply andb_true_iff in Hwf as [Hwc Hwcs].
  simpl. rewrite (Hc Hwc). simpl. by rewrite (IH Hwcs).
Qed.

Ltac pass_over :=
  rewrite members_cons, member_passed_over by (by repeat constructor);
  cbn [mbind option_bind].

(** One frame, written by the tracer and read by the explorer. *)
Lemma frame_roundtrip c :
  wf_callFrame c = true ->
  explorer.unmarshal_callFrame0 (native.MarshalJSON c) explorer.zeroFrame0
  = Some (frame0_of c).
Proof.
  induction c as [c IH] using callFrame_ind'. intros Hwf.
  destruct c as [typ from gas gasUsed to input output err revertReason calls
                   logs value].
  cbn [wf_callFrame native.From native.To native.Value native.Calls] in Hwf.
  apply andb_true_iff in Hwf as [Hwf Hcalls].
  apply andb_true_iff in Hwf as [Hwf Hvalue].
  apply andb_true_iff in Hwf as [Hfrom Hto].
  apply N.ltb_lt in Hfrom.
  cbn [native.Calls] in IH.
  cbn [native.MarshalJSON native.From native.To native.Value native.Calls
       native.Gas native.GasUsed native.Input native.Output native.Error
       native.RevertReason native.Logs native.Type_
       explorer.unmarshal_callFrame0 app].
  rewrite members_cons, member_from, (Address_text_roundtrip from Hfrom).
  cbn [mbind option_bind].
  do 2 pass_over.
  (* to *)
  set (f1 := explorer.mkCallFrame0 from _ _ _ _).
  assert (Hstep_to :
    forall ms,
      members (match to with
               | Some a => [("to", JString (Address_MarshalText a))]
               | None => []
               end ++ ms) f1
      = members ms (explorer.mkCallFrame0 from to [] None EmptyString)).
  { intros ms. destruct to as [a|]; [|done]. apply N.ltb_lt in Hto.
    cbn [app]. rewrite members_cons, member_to, (Address_text_roundtrip a Hto).
    done. }
  rewrite Hstep_to. clear Hstep_to f1.
  cbn [app]. pass_over.
  rewrite !members_omitempty_passed_over by (by repeat constructor).
  (* calls *)
  assert (Hstep_calls :
    forall ms,
      members (match calls with
               | [] => []
               | c0 :: l =>
                   [("calls", JArray (map native.MarshalJSON (c0 :: l)))]
               end ++ ms)
        (explorer.mkCallFrame0 from to [] None EmptyString)
      = members ms
          (explorer.mkCallFrame0 from to (map frame0_of calls) None EmptyString)).
  { intros ms. destruct calls as [|c calls]; [done|].
    cbn [app]. rewrite members_cons, member_calls.
    by rewrite (elems_roundtrip _ IH Hcalls). }
  rewrite Hstep_calls. clear Hstep_calls.
  (* logs *)
  assert (Hstep_logs :
    forall ms f,
      members (match logs with
               | [] => []
               | l0 :: l =>
                   [("logs", JArray (map native.marshal_callLog (l0 :: l)))]
               end ++ ms) f
      = members ms f).
  { intros ms f. destruct logs; [done|]. cbn [app]. by pass_over. }
  rewrite Hstep_logs. clear Hstep_logs.
  (* value *)
  assert (Hstep_value :
    forall ms,
      members (match value with
               | Some v => [("value", JString (Big_MarshalText v))]
               | None => []
               end ++ ms)
        (explorer.mkCallFrame0 from to (map frame0_of calls) None EmptyString)
      = members ms
          (explorer.mkCallFrame0 from to (map frame0_of calls) value
             EmptyString)).
  { intros ms. destruct value as [v|]; [|done]. apply N.ltb_lt in Hvalue.
    cbn [app]. rewrite members_cons, member_value, (Big_text_roundtrip v Hvalue).
    done. }
  rewrite Hstep_value. clear Hstep_value.
  rewrite members_cons, member_type. reflexivity.
Qed.

(** The lists of call stacks of a block, as [GetResult] writes them and
    [blockImportHook] reads them. *)
Lemma callstacks_roundtrip T :
  forallb (forallb wf_callFrame) T = true ->
  explorer.unmarshal_callstacks (native.marshal_callstacks T)
  = Some (map (map frame0_of) T).
Proof.
  intros Hwf. unfold explorer.unmarshal_callstacks, native.marshal_callstacks.
  assert (Hstack : forall stack,
            forallb wf_callFrame stack = true ->
            explorer.unmarshal_slice
              (fun j => explorer.unmarshal_callFrame0 j explorer.zeroFrame0)
              (native.marshal_slice native.MarshalJSON stack)
            = Some (map frame0_of stack)).
  { intros stack Hs. destruct stack as [|c stack]; [done|].
    unfold native.marshal_slice, explorer.unmarshal_slice.
    apply elems_roundtrip; [|done].
    apply Forall_forall. intros c' _. apply frame_roundtrip. }
  destruct T as [|stack T]; [done|].
  unfold native.marshal_slice at 1. unfold explorer.unmarshal_slice at 1.
  revert Hwf. generalize (stack :: T). clear stack T.
  induction l as [|stack T IH]; intros Hwf; [done|].
  simpl in Hwf. apply andb_true_iff in Hwf as [Hs HT].
  cbn [map explorer.unmarshal_elems].
  rewrite (Hstack stack Hs). cbn [mbind option_bind].
  by rewrite (IH HT).
Qed.

(** C4, as amended. For every well-formed list of call stacks [T], reading
    back what the tracer wrote gives [T] as the explorer's frame type shows
    it: type name, [from], [to], [value] and [calls] of every frame of every
    tree (gas, gasUsed, input, output, error, revertReason and logs are not
    read back), with [to] and [value] absent exactly where they were absent
    in [T], a present zero value and a present zero address included. *)
Theorem trace_roundtrip_on_extractor_fields T :
  forallb (forallb wf_callFrame) T = true ->
  explorer.unmarshal_callstacks (native.marshal_callstacks T)
  = Some (map (map frame0_of) T)
  /\ Forall (Forall (fun c =>
               explorer.To (frame0_of c) = native.To c
               /\ explorer.Value (frame0_of c) = native.Value c)) T.
Proof.
  intros Hwf. split; [by apply callstacks_roundtrip|].
  apply Forall_forall. intros stack _. apply Forall_forall.
  intros c _. by destruct c.
Qed.

End Facts.

(** C4 as stated fails: two lists of call stacks that differ in the gas of
    a frame are written differently and read back as the same list, so what
    is read back cannot be the list that was written. *)
Lemma trace_roundtrip_forgets_gas :
  [[sample.traced 21000]] <> [[sample.traced 90000]]
  /\ native.marshal_callstacks (tf := hexutil.text) [[sample.traced 21000]]
     <> native.marshal_callstacks (tf := hexutil.text) [[sample.traced 90000]]
  /\ explorer.unmarshal_callstacks (tf := hexutil.text)
       (native.marshal_callstacks (tf := hexutil.text) [[sample.traced 21000]])
     = explorer.unmarshal_callstacks (tf := hexutil.text)
         (native.marshal_callstacks (tf := hexutil.text)
            [[sample.traced 90000]])
  /\ explorer.unmarshal_callstacks (tf := hexutil.text)
       (native.marshal_callstacks (tf := hexutil.text) [[sample.traced 21000]])
     = Some [[explorer.mkCallFrame0 1%N (Some 2%N) [] (Some 5%N) "Call"]].
Proof.
  split; [discriminate|]. split; [discriminate|]. split; reflexivity.
Qed.

Lemma trace_roundtrip_on_extractor_fields_witness :
  let T := [[sample.traced_absent; sample.traced_zero]; []] in
  forallb (forallb wf_callFrame) T = true
  /\ (explorer.unmarshal_callstacks (tf := hexutil.text)
        (native.marshal_callstacks (tf := hexutil.text) T)
      = Some (map (map (frame0_of (tf := hexutil.text))) T)
      /\ Forall (Forall (fun c =>
                   explorer.To (frame0_of (tf := hexutil.text) c) = native.To c
                   /\ explorer.Value (frame0_of (tf := hexutil.text) c)
                      = native.Value c)) T).
Proof.
  intros T. split; [reflexivity|].
  apply (trace_roundtrip_on_extractor_fields (tf := hexutil.text)
           (laws := Hexutil.text_laws) T).
  reflexivity.
Defined.

End Trace.

(** ** The tracer over whole transactions and blocks *)

Module Collector.
Import native collector.

Lemma store_top {A} (below : list A) (p x : A) :
  store (below ++ [p]) (len (below ++ [p]) - 1) x = below ++ [x].
Proof.
  unfold store, len. rewrite length_app. simpl.
  replace (Z.to_nat (Z.of_nat (length below + 1) - 1))
    with (length below + 0)%nat by lia.
  by rewrite insert_app_r.
Qed.

Lemma with_callstack_same t : with_callstack t (callstack t) = t.
Proof. by destruct t. Qed.

Lemma set_Logs_same p : set_Logs p (Logs p ++ []) = p.
Proof. destruct p. unfold set_Logs. simpl. by rewrite app_nil_r. Qed.

Section Facts.

Variable processOutput : callFrame -> bytes -> option error -> bool -> callFrame.
Variable clearFailedLogs : callFrame -> bool -> callFrame.
Variable json_encode : json -> string + error.
Context {tf : TextForms}.

#[local] Abbreviation OnExit := (native.OnExit processOutput).
#[local] Abbreviation OnTxEnd := (native.OnTxEnd clearFailedLogs).
#[local] Abbreviation GetResult := (native.GetResult json_encode).
#[local] Abbreviation deliver := (native.deliver processOutput).
#[local] Abbreviation run := (native.run processOutput).
#[local] Abbreviation run_tx := (native.run_tx processOutput clearFailedLogs).
#[local] Abbreviation builds := (collector.builds processOutput).
#[local] Abbreviation placeholder := (collector.placeholder clearFailedLogs).
#[local] Abbreviation run_txs := (collector.run_txs processOutput clearFailedLogs).
#[local] Abbreviation run_block :=
  (collector.run_block processOutput clearFailedLogs).
#[local] Abbreviation produces :=
  (collector.produces processOutput clearFailedLogs).
#[local] Abbreviation GetBytes := (collector.GetBytes json_encode).
#[local] Abbreviation BlockTraceGetResult :=
  (collector.BlockTraceGetResult json_encode).

Lemma OnEnter_pushes t d typ from to input gas value :
  OnlyTopCall (config t) = false -> interrupt t = false ->
  callstack (OnEnter t d typ from to input gas value)
  = callstack t
    ++ [entered typ from to input (if (d =? 0)%Z then gasLimit t else gas)
          value].
Proof. intros Htop Hint. unfold OnEnter. simpl. by rewrite Htop, Hint. Qed.

Lemma OnLog_attaches t l below p :
  (OnlyTopCall (config t) && (0 <? depth t)%Z) = false ->
  interrupt t = false ->
  callstack t = below ++ [p] ->
  OnLog t l
  = Ok (with_callstack t (below ++ [add_log (WithLog (config t)) p l])).
Proof.
  intros Htop Hint Hcs. unfold OnLog, add_log.
  destruct (WithLog (config t)); simpl.
  - rewrite Htop, Hint, Hcs, index_snoc. simpl. by rewrite store_top.
  - by rewrite <- Hcs, with_callstack_same.
Qed.

(** Every well-nested run describes a tree. *)
Lemma scopes_builds withLog d cbs :
  scopes d cbs -> forall p, exists p', builds withLog d cbs p p'.
Proof.
  induction 1 as [d|d l rest _ IH
                 |d typ from to input gas value inner output gasUsed err
                    reverted rest _ IHinner _ IHrest]; intros p.
  - exists p. constructor.
  - destruct (IH (add_log withLog p l)) as (p' & Hp'). exists p'.
    by constructor.
  - destruct (IHinner (entered typ from to input gas value)) as (child & Hc).
    destruct (IHrest (set_Calls p
                        (Calls p ++ [processOutput (set_GasUsed child gasUsed)
                                       output err reverted]))) as (p' & Hp').
    exists p'. by econstructor.
Qed.

Lemma run_builds withLog d cbs p p' :
  builds withLog d cbs p p' ->
  forall t below,
    (0 < d)%Z -> WithLog (config t) = withLog ->
    OnlyTopCall (config t) = false -> interrupt t = false ->
    callstack t = below ++ [p] ->
    exists t', run t cbs = Ok t' /\ callstack t' = below ++ [p']
               /\ same_block t t'.
Proof.
  induction 1 as [d p|d l rest p p' _ IH
                 |d typ from to input gas value inner output gasUsed err
                    reverted rest p child p' _ IHinner _ IHrest];
    intros t below Hd Hwl Htop Hint Hcs.
  - exists t. split; [done|]. split; [done|]. by repeat split.
  - simpl. rewrite (OnLog_attaches t l below p), Hwl by (by rewrite ?Htop).
    simpl.
    destruct (IH (with_callstack t (below ++ [add_log withLog p l])) below)
      as (t' & Hr & Hcs' & Hsb); try done.
    exists t'. split; [done|]. split; [done|].
    destruct Hsb as (?&?&?&?). by repeat split.
  - simpl. rewrite Tracer.run_app.
    set (t1 := OnEnter t d typ from to input gas value).
    pose proof (Tracer.OnEnter_same_block t d typ from to input gas value)
      as (Hcss1 & Hcfg1 & Hint1 & Hreason1). fold t1 in Hcss1, Hcfg1, Hint1, Hreason1.
    assert (Hcs1 : callstack t1
                   = (below ++ [p]) ++ [entered typ from to input gas value]).
    { unfold t1. rewrite OnEnter_pushes, Hcs by done.
      by destruct (Z.eqb_spec d 0); [lia|]. }
    destruct (IHinner t1 (below ++ [p])) as (t2 & Hr2 & Hcs2 & Hsb2);
      [lia|congruence|congruence|congruence|done|].
    rewrite Hr2. simpl.
    destruct Hsb2 as (Hcss2 & Hcfg2 & Hint2 & Hreason2).
    rewrite (Tracer.OnExit_pops processOutput t2 d output gasUsed err reverted
               below p child);
      [|by rewrite Hcs2, <- app_assoc|lia|congruence].
    simpl.
    destruct (IHrest
                (with_callstack (with_depth t2 (d - 1))
                   (below ++ [set_Calls p
                                (Calls p
                                 ++ [processOutput (set_GasUsed child gasUsed)
                                       output err reverted])])) below)
      as (t' & Hr & Hcs' & Hsb'); simpl; try done; try congruence.
    exists t'. split; [done|]. split; [done|].
    destruct Hsb' as (?&?&?&?). simpl in *. repeat split; congruence.
Qed.

(** X1. With sub-calls collected, the callbacks of a well-nested transaction
    are rebuilt as the tree they describe: the finished stack appended to
    the block's list holds the placeholder frame of [OnTxStart], carrying
    the receipt's gas, and the root frame with the transaction's gas limit,
    its sub-calls nested in call order and its logs at their positions; the
    root itself receives neither the exit's output nor the receipt's gas. *)
Theorem transaction_is_rebuilt_as_tree t txGas typ from to input gas value
    inner output gasUsed err reverted receipt :
  OnlyTopCall (config t) = false ->
  scopes 1 inner ->
  exists root t',
    builds (WithLog (config t)) 1 inner
      (entered typ from to input txGas value) root
    /\ run_tx t txGas
         (CbEnter 0 typ from to input gas value
            :: inner ++ [CbExit 0 output gasUsed err reverted])
         (Some receipt) None = Ok t'
    /\ callstacks t'
       = callstacks t ++ [[placeholder (WithLog (config t)) receipt; root]]
    /\ callstack t' = [].
Proof.
  intros Htop Hin.
  destruct (scopes_builds (WithLog (config t)) 1 inner Hin
              (entered typ from to input txGas value)) as (root & Hroot).
  exists root. unfold native.run_tx. simpl. rewrite Tracer.run_app.
  set (t1 := OnEnter (OnTxStart t txGas) 0 typ from to input gas value).
  pose proof (Tracer.OnEnter_same_block (OnTxStart t txGas) 0 typ from to input
                gas value) as (Hcss1 & Hcfg1 & Hint1 & _).
  fold t1 in Hcss1, Hcfg1, Hint1. simpl in Hcss1, Hcfg1, Hint1.
  assert (Hcs1 : callstack t1
                 = [zeroFrame] ++ [entered typ from to input txGas value]).
  { unfold t1. by rewrite OnEnter_pushes. }
  destruct (run_builds _ 1 inner _ root Hroot t1 [zeroFrame])
    as (t2 & Hr2 & Hcs2 & Hcss2 & Hcfg2 & _); [lia|congruence..|done|].
  rewrite Hr2. simpl.
  assert (Hexit : OnExit t2 0 output gasUsed err reverted = Ok t2).
  { unfold native.OnExit, captureEnd. simpl. by rewrite Hcs2. }
  rewrite Hexit. simpl. unfold native.OnTxEnd. rewrite Hcs2. simpl.
  eexists. split; [done|]. split; [reflexivity|]. simpl.
  split; [|done]. rewrite Hcss2, Hcss1, Hcfg2, Hcfg1.
  unfold collector.placeholder. by destruct (WithLog (config t)).
Qed.

(** In top-call-only mode a well-nested run below the root leaves the
    frames on the stack as they are, but for the logs of the root. *)
Lemma scopes_only_top_call d cbs :
  scopes d cbs ->
  forall t below p,
    (1 <= d)%Z -> depth t = (d - 1)%Z ->
    OnlyTopCall (config t) = true -> interrupt t = false ->
    callstack t = below ++ [p] ->
    exists t' logs,
      run t cbs = Ok t'
      /\ callstack t' = below ++ [set_Logs p (Logs p ++ logs)]
      /\ depth t' = (d - 1)%Z
      /\ same_block t t'
      /\ Forall (fun l => Position l = N.of_nat (length (Calls p))) logs
      /\ (WithLog (config t) = false \/ (1 < d)%Z -> logs = []).
Proof.
  induction 1 as [d|d l rest _ IH
                 |d typ from to input gas value inner output gasUsed err
                    reverted rest _ IHinner _ IHrest];
    intros t below p Hd Hdepth Htop Hint Hcs.
  - exists t, []. rewrite set_Logs_same.
    split; [done|]. split; [done|]. split; [done|].
    split; [by repeat split|]. split; [constructor|done].
  - simpl.
    destruct (WithLog (config t) && negb (0 <? depth t)%Z) eqn:Hcapture.
    + apply andb_true_iff in Hcapture as [Hwl Hd0].
      apply negb_true_iff in Hd0.
      rewrite (OnLog_attaches t l below p), Hwl by (by rewrite ?Hd0, ?andb_false_r).
      simpl. unfold add_log.
      set (p1 := set_Logs p _).
      destruct (IH (with_callstack t (below ++ [p1])) below p1)
        as (t' & logs & Hr & Hcs' & Hdepth' & Hsb & Hpos & Hnone); try done.
      exists t', (mkCallLog (log_Address l) (log_Topics l) (log_Data l)
                    (N.of_nat (length (Calls p))) :: logs).
      split; [done|].
      split.
      { rewrite Hcs'. unfold p1. destruct p. unfold set_Logs. simpl.
        by rewrite <- app_assoc. }
      split; [done|].
      split; [destruct Hsb as (?&?&?&?); by repeat split|].
      split; [by constructor|].
      intros [Hwl'|Hd1]; [congruence|].
      apply Z.ltb_ge in Hd0. lia.
    + assert (Hskip : OnLog t l = Ok t).
      { unfold OnLog. rewrite Htop. simpl.
        destruct (WithLog (config t)); [|done]. simpl in *.
        apply negb_false_iff in Hcapture. by rewrite Hcapture. }
      rewrite Hskip. simpl.
      destruct (IH t below p) as (t' & logs & H'); try done.
      by exists t', logs.
  - simpl. rewrite Tracer.run_app.
    assert (Henter : OnEnter t d typ from to input gas value = with_depth t d).
    { unfold OnEnter. simpl. rewrite Htop.
      by destruct (Z.ltb_spec 0 d); [|lia]. }
    rewrite Henter.
    destruct (IHinner (with_depth t d) below p)
      as (t2 & logs2 & Hr2 & Hcs2 & Hdepth2 & Hsb2 & _ & Hnone2);
      [lia|simpl; lia|done..|].
    rewrite Hr2. simpl.
    assert (Hlogs2 : logs2 = []) by (apply Hnone2; right; lia).
    rewrite Hlogs2, set_Logs_same in Hcs2.
    destruct Hsb2 as (Hcss2 & Hcfg2 & Hint2 & Hreason2). simpl in *.
    assert (Hexit : OnExit t2 d output gasUsed err reverted
                    = Ok (with_depth t2 (d - 1))).
    { unfold native.OnExit. destruct (Z.eqb_spec d 0); [lia|].
      simpl. by rewrite Hcfg2, Htop. }
    rewrite Hexit. simpl.
    destruct (IHrest (with_depth t2 (d - 1)) below p)
      as (t' & logs & Hr & Hcs' & Hdepth' & Hsb' & Hpos & Hnone);
      simpl; try done; try congruence.
    exists t', logs. split; [done|]. split; [done|]. split; [done|].
    split.
    { destruct Hsb' as (?&?&?&?). simpl in *. repeat split; congruence. }
    split; [done|]. intros H'. apply Hnone. simpl. by rewrite Hcfg2.
Qed.

(** X2. In top-call-only mode no frame below depth 0 is ever captured: the
    finished stack of a well-nested transaction holds the placeholder and
    the root frame as entered, the root without any sub-call; whatever
    logs it carries were emitted by the root itself and sit at position 0,
    and it carries none when logs are not collected. *)
Theorem only_top_call_keeps_the_root_flat t txGas typ from to input gas value
    inner output gasUsed err reverted receipt :
  OnlyTopCall (config t) = true ->
  scopes 1 inner ->
  exists logs t',
    run_tx t txGas
      (CbEnter 0 typ from to input gas value
         :: inner ++ [CbExit 0 output gasUsed err reverted])
      (Some receipt) None = Ok t'
    /\ callstacks t'
       = callstacks t
         ++ [[placeholder (WithLog (config t)) receipt;
              set_Logs (entered typ from to input txGas value) logs]]
    /\ Forall (fun l => Position l = 0%N) logs
    /\ (WithLog (config t) = false -> logs = []).
Proof.
  intros Htop Hin. unfold native.run_tx. simpl. rewrite Tracer.run_app.
  set (t1 := OnEnter (OnTxStart t txGas) 0 typ from to input gas value).
  assert (Ht1 : t1 = mkTracer (callstacks t)
                       ([zeroFrame] ++ [entered typ from to input txGas value])
                       (config t) txGas 0 false None).
  { unfold t1, OnEnter. simpl. by rewrite andb_false_r. }
  destruct (scopes_only_top_call 1 inner Hin t1 [zeroFrame]
              (entered typ from to input txGas value))
    as (t2 & logs & Hr2 & Hcs2 & _ & (Hcss2 & Hcfg2 & _) & Hpos & Hnone);
    [lia|by rewrite Ht1|by rewrite Ht1|by rewrite Ht1|by rewrite Ht1|].
  rewrite Hr2. simpl. rewrite Ht1 in Hcss2, Hcfg2, Hnone. simpl in *.
  assert (Hexit : OnExit t2 0 output gasUsed err reverted = Ok t2).
  { unfold native.OnExit, captureEnd. simpl. by rewrite Hcs2. }
  rewrite Hexit. simpl. unfold native.OnTxEnd. rewrite Hcs2. simpl.
  exists logs. eexists. split; [reflexivity|]. simpl.
  split.
  { rewrite Hcss2, Hcfg2. unfold collector.placeholder.
    by destruct (WithLog (config t)). }
  split; [done|]. intros Hwl. apply Hnone. by left.
Qed.

(** *** What [OnTxEnd] finds and what it appends *)

#[local] Abbreviation captured := (collector.captured processOutput).

(** The callbacks of an executed transaction leave the placeholder frame
    and the root frame on the stack, the root holding what was captured. *)
Lemma tx_body_captured t txGas typ from to input gas value inner output
    gasUsed err reverted :
  scopes 1 inner ->
  exists root open,
    captured (config t) inner (entered typ from to input txGas value) root
    /\ run (OnTxStart t txGas)
         (CbEnter 0 typ from to input gas value
            :: inner ++ [CbExit 0 output gasUsed err reverted]) = Ok open
    /\ callstack open = [zeroFrame; root]
    /\ same_block (OnTxStart t txGas) open.
Proof.
  intros Hin. simpl. setoid_rewrite Tracer.run_app.
  set (t1 := OnEnter (OnTxStart t txGas) 0 typ from to input gas value).
  assert (Ht1 : t1 = mkTracer (callstacks t)
                       ([zeroFrame] ++ [entered typ from to input txGas value])
                       (config t) txGas 0 false None).
  { unfold t1, OnEnter. simpl. by rewrite andb_false_r. }
  assert (Hexit : forall t2 root,
            callstack t2 = [zeroFrame] ++ [root] ->
            OnExit t2 0 output gasUsed err reverted = Ok t2).
  { intros t2 root Hcs2. unfold native.OnExit, captureEnd. simpl.
    by rewrite Hcs2. }
  unfold collector.captured.
  destruct (OnlyTopCall (config t)) eqn:Htop.
  - destruct (scopes_only_top_call 1 inner Hin t1 [zeroFrame]
                (entered typ from to input txGas value))
      as (t2 & logs & Hr2 & Hcs2 & _ & Hsb2 & Hpos & Hnone);
      [lia|by rewrite Ht1..|].
    exists (set_Logs (entered typ from to input txGas value) logs), t2.
    split.
    { exists logs. split; [done|]. split; [done|].
      intros Hwl. apply Hnone. left. by rewrite Ht1. }
    rewrite Hr2. simpl. rewrite (Hexit t2 _ Hcs2). simpl.
    split; [done|]. split; [done|].
    rewrite Ht1 in Hsb2. destruct Hsb2 as (?&?&?&?). by repeat split.
  - destruct (scopes_builds (WithLog (config t)) 1 inner Hin
                (entered typ from to input txGas value)) as (root & Hroot).
    destruct (run_builds _ 1 inner _ root Hroot t1 [zeroFrame])
      as (t2 & Hr2 & Hcs2 & Hsb2); [lia|by rewrite Ht1..|].
    exists root, t2. split; [done|].
    rewrite Hr2. simpl. rewrite (Hexit t2 _ Hcs2). simpl.
    split; [done|]. split; [done|].
    rewrite Ht1 in Hsb2. destruct Hsb2 as (?&?&?&?). by repeat split.
Qed.


Lemma deliver_returns t c :
  WithLog (config t) = false \/ callstack t <> [] ->
  exists t',
    deliver t c = Ok t' /\ same_block t t'
    /\ (callstack t <> [] -> callstack t' <> []).
Proof.
  intros Hsafe. destruct c as [d typ from to input gas value|d o g e r|l]; simpl.
  - eexists. split; [done|]. split; [apply Tracer.OnEnter_same_block|].
    pose proof (Tracer.OnEnter_length t d typ from to input gas value) as Hl.
    intros Hne Hnil. rewrite Hnil in Hl. destruct (callstack t); [done|].
    simpl in Hl. lia.
  - destruct (Tracer.OnExit_returns processOutput t d o g e r)
      as (t' & -> & Hsb & _ & Hopen).
    exists t'. split; [done|]. split; [done|].
    intros Hne Hnil. destruct (callstack t); [done|].
    rewrite Hnil in Hopen. simpl in Hopen. lia.
  - destruct (callstack t) as [|f s] eqn:Hcs.
    + destruct Hsafe as [Hwl|Hne]; [|done].
      exists t. unfold OnLog. rewrite Hwl. simpl.
      split; [done|]. split; [by repeat split|]. by rewrite Hcs.
    + destruct (Tracer.OnLog_open t l) as (t' & -> & Hsb & Hlen & _);
        [rewrite Hcs; simpl; lia|].
      exists t'. split; [done|]. split; [done|].
      intros _ Hnil. rewrite Hnil, Hcs in Hlen. done.
Qed.

(** After [OnTxStart] the stack is never empty again, so the callbacks of
    a transaction return. *)
Lemma run_with_frame t cbs :
  callstack t <> [] ->
  exists t', run t cbs = Ok t' /\ same_block t t'.
Proof.
  revert t. induction cbs as [|c cbs IH]; intros t Hopen.
  { exists t. split; [done|]. by repeat split. }
  destruct (deliver_returns t c (or_intror Hopen)) as (t1 & Hd & Hsb & Hne).
  destruct (IH t1 (Hne Hopen)) as (t' & Hr & Hsb').
  exists t'. simpl. rewrite Hd. simpl. split; [done|].
  by eapply Tracer.same_block_trans.
Qed.

Lemma run_tx_step t x :
  (tx_err x = None -> tx_body (tx_callbacks x) /\ is_Some (tx_receipt x)) ->
  exists t',
    run_tx t (tx_gas x) (tx_callbacks x) (tx_receipt x) (tx_err x) = Ok t'
    /\ config t' = config t
    /\ if succeeded x
       then exists stack,
              callstacks t' = callstacks t ++ [stack]
              /\ length stack = 2%nat
       else callstacks t' = callstacks t.
Proof.
  intros Hok. unfold native.run_tx, succeeded.
  destruct (tx_err x) as [e|].
  - destruct (run_with_frame (OnTxStart t (tx_gas x)) (tx_callbacks x))
      as (t1 & Hr & Hcss & Hcfg & _); [done|].
    rewrite Hr. simpl. exists t1. simpl in Hcss, Hcfg. done.
  - destruct (Hok eq_refl) as [Hbody (receipt & Hreceipt)].
    destruct (Tracer.tx_body_leaves_root processOutput t (tx_gas x)
                (tx_callbacks x) Hbody) as (t1 & Hr & (Hcss & Hcfg & _) & Hlen).
    rewrite Hr, Hreceipt. simpl. simpl in Hcss, Hcfg.
    unfold native.OnTxEnd.
    destruct (index_in_range (callstack t1) 0) as (root & -> & _);
      [unfold len; lia|].
    simpl. eexists. split; [done|]. simpl. split; [done|].
    eexists. rewrite Hcss. split; [done|]. by rewrite length_store.
Qed.

Lemma run_txs_appends txs :
  Forall (fun x => tx_err x = None ->
                   tx_body (tx_callbacks x) /\ is_Some (tx_receipt x)) txs ->
  forall t,
    exists t' stacks,
      run_txs t txs = Ok t'
      /\ callstacks t' = callstacks t ++ stacks
      /\ Forall2 (produces (config t)) (List.filter succeeded txs) stacks
      /\ Forall (fun stack => length stack = 2%nat) stacks.
Proof.
  induction 1 as [|x txs Hx _ IH]; intros t.
  { exists t, []. rewrite app_nil_r. repeat split; constructor. }
  destruct (run_tx_step t x Hx) as (t1 & Hr & Hcfg & Hstep).
  destruct (IH t1) as (t' & stacks & Hrs & Hcss & Hprod & Hlen).
  simpl. rewrite Hr. simpl. rewrite Hcfg in Hprod.
  destruct (succeeded x) eqn:Hok.
  - destruct Hstep as (stack & Hcss1 & Hlen1).
    exists t', (stack :: stacks). split; [done|].
    split; [by rewrite Hcss, Hcss1, <- app_assoc|].
    split; [|by constructor].
    constructor; [|done]. by exists t, t1.
  - exists t', stacks. split; [done|]. split; [congruence|]. done.
Qed.

(** X3. Over a block, started by [OnBlockStart], whose executed
    transactions are well nested and come with a receipt: the tracer ends
    up holding exactly one finished stack for every transaction whose
    [OnTxEnd] carried no error, in transaction order, each of two frames;
    whatever it held from the block before is gone, and a transaction
    that failed validation leaves no entry and no gap, whatever callbacks
    were delivered for it. *)
Theorem block_holds_one_stack_per_executed_transaction t txs :
  Forall (fun x => tx_err x = None ->
                   tx_body (tx_callbacks x) /\ is_Some (tx_receipt x)) txs ->
  exists t',
    run_block t txs = Ok t'
    /\ Forall2 (produces (config t)) (List.filter succeeded txs)
         (callstacks t')
    /\ Forall (fun stack => length stack = 2%nat) (callstacks t').
Proof.
  intros Htxs. unfold collector.run_block.
  destruct (run_txs_appends txs Htxs (OnBlockStart t))
    as (t' & stacks & Hr & Hcss & Hprod & Hlen).
  exists t'. simpl in Hcss. rewrite Hcss. done.
Qed.

(** X4. The per-call callbacks can only panic through [OnLog] with logs
    collected and no frame on the stack: with log collection off (as the
    explorer configures the tracer) or with a frame on the stack (as after
    any [OnTxStart]), no sequence of [OnEnter], [OnExit] and [OnLog], in
    whatever order and at whatever depths, panics; it leaves the block's
    finished stacks, the interruption flag and the reason alone. *)
Theorem callbacks_return_unless_log_without_frame t cbs :
  WithLog (config t) = false \/ callstack t <> [] ->
  exists t', run t cbs = Ok t' /\ same_block t t'.
Proof.
  revert t. induction cbs as [|c cbs IH]; intros t Hsafe.
  { exists t. split; [done|]. by repeat split. }
  destruct (deliver_returns t c Hsafe) as (t1 & Hd & Hsb & Hne).
  assert (Hsafe1 : WithLog (config t1) = false \/ callstack t1 <> []).
  { destruct Hsafe as [Hwl|H]; [left|right; by apply Hne].
    destruct Hsb as (_ & -> & _). done. }
  destruct (IH t1 Hsafe1) as (t' & Hr & Hsb').
  exists t'. simpl. rewrite Hd. simpl. split; [done|].
  by eapply Tracer.same_block_trans.
Qed.

(** X5. With log collection off every [OnLog] is dropped: a run of
    callbacks ends in the state the same run without its [OnLog] callbacks
    ends in. *)
Theorem logs_are_dropped_without_log_collection t cbs :
  WithLog (config t) = false ->
  run t cbs = run t (List.filter (fun c => negb (is_log c)) cbs).
Proof.
  revert t. induction cbs as [|c cbs IH]; intros t Hwl; [done|].
  destruct (deliver_returns t c (or_introl Hwl)) as (t1 & Hd & Hsb & _).
  assert (Hwl1 : WithLog (config t1) = false)
    by (destruct Hsb as (_ & -> & _); done).
  destruct c as [d typ from to input gas value|d o g e r|l];
    cbn [List.filter is_log negb native.run].
  - rewrite Hd. simpl. by apply IH.
  - rewrite Hd. simpl. by apply IH.
  - rewrite Hd. simpl in Hd. unfold OnLog in Hd. rewrite Hwl in Hd.
    simpl in Hd. injection Hd as <-. simpl. by apply IH.
Qed.

(** X6. Once [Stop] was called with an error, and for as long as no
    transaction starts, [core.BlockTraceGetResult] hands out no trace bytes
    at all: whatever callbacks follow, it returns nil bytes together with
    the stop reason (or with the encoder's error). *)
Theorem stopped_tracer_hands_out_no_bytes t e cbs :
  exists t',
    run (Stop t (Some e)) cbs = Ok t'
    /\ BlockTraceGetResult (Some t')
       = Ok (None,
             Some match json_encode (marshal_callstacks (callstacks t)) with
                  | inl _ => e
                  | inr encoding_error => encoding_error
                  end).
Proof.
  destruct (Tracer.run_interrupted processOutput cbs (Stop t (Some e))
              (Stop t (Some e)))
    as (t' & _ & Hr & _ & (Hcss & _ & _ & Hreason) & _); [done|done|].
  exists t'. split; [done|].
  unfold collector.BlockTraceGetResult, native.GetResult, json_Marshal.
  rewrite Hcss. simpl.
  destruct (json_encode _); [by rewrite Hreason|done].
Qed.

Lemma string_app_assoc (a b c : string) :
  ((a ++ b) ++ c)%string = (a ++ b ++ c)%string.
Proof. induction a as [|x a IH]; [done|]. simpl. by rewrite IH. Qed.

Lemma string_app_nil (a : string) : (a ++ EmptyString)%string = a.
Proof. induction a as [|x a IH]; [done|]. simpl. by rewrite IH. Qed.

(** The texts of [texts], each behind a comma. *)
Lemma GetBytes_range_later stacks :
  forall texts i bb,
    (0 < i)%Z ->
    Forall2 (fun s o => json_encode (marshal_slice MarshalJSON s) = inl o)
      stacks texts ->
    collector.GetBytes_range json_encode i stacks bb
    = inl (bb ++ match texts with
                 | [] => EmptyString
                 | _ => "," ++ join "," texts
                 end)%string.
Proof.
  induction stacks as [|s stacks IH]; intros texts i bb Hi Hall;
    inversion Hall as [|? o ? texts' Ho Hall']; subst.
  { simpl. by rewrite string_app_nil. }
  simpl. rewrite Ho. destruct (Z.eqb_spec i 0) as [?|_]; [lia|]. simpl.
  rewrite (IH texts' (i + 1)%Z) by (done || lia). f_equal.
  destruct texts' as [|o' texts'].
  - by rewrite string_app_nil, string_app_assoc.
  - by rewrite !string_app_assoc.
Qed.

Lemma GetBytes_range_first stacks texts :
  Forall2 (fun s o => json_encode (marshal_slice MarshalJSON s) = inl o)
    stacks texts ->
  collector.GetBytes_range json_encode 0 stacks "["
  = inl ("[" ++ join "," texts)%string.
Proof.
  intros Hall. inversion Hall as [|s o stacks' texts' Ho Hall']; subst;
    [done|].
  cbn [collector.GetBytes_range]. rewrite Ho. simpl negb. cbv iota.
  rewrite (GetBytes_range_later stacks' texts') by (done || lia).
  f_equal. destruct texts' as [|o' texts'].
  - by rewrite string_app_nil.
  - by rewrite !string_app_assoc.
Qed.

(** X7. [GetBytes] and [GetResult] agree on every block that holds at
    least one finished stack, given that the encoder writes an array as its
    elements' texts between brackets, separated by commas: same bytes, same
    error. On a block without finished stacks [GetBytes] returns the text
    of the empty array, with the reason. *)
Theorem GetBytes_agrees_with_GetResult t texts :
  (callstacks t = [] -> GetBytes t = (Some "[]", reason t))
  /\ (writes_arrays json_encode ->
      callstacks t <> [] ->
      Forall2 (fun s o => json_encode (marshal_slice MarshalJSON s) = inl o)
        (callstacks t) texts ->
      GetBytes t = GetResult t).
Proof.
  split.
  - intros Hnil. unfold collector.GetBytes. by rewrite Hnil.
  - intros Hlaw Hne Hall.
    unfold collector.GetBytes, native.GetResult, json_Marshal,
      marshal_callstacks.
    rewrite (GetBytes_range_first _ texts Hall).
    destruct (callstacks t) as [|s stacks] eqn:Hcss; [done|].
    unfold marshal_slice at 1.
    rewrite (Hlaw (map (marshal_slice MarshalJSON) (s :: stacks)) texts).
    + by rewrite string_app_assoc.
    + clear -Hall. induction Hall; constructor; done.
Qed.

End Facts.


(** *** The collector on sample transactions *)

Lemma inner_scopes : scopes 1 cases.inner.
Proof.
  apply scopes_log.
  apply (scopes_call 1 Byte.xf1 2%N 3%N [] 5000%N (Some 3%N)
           [CbLog cases.transfer_log] [] 100%N None false []).
  - apply scopes_log, scopes_nil.
  - apply scopes_nil.
Qed.

Lemma plain_call_tx_body : tx_body sample.plain_call_tx.
Proof.
  apply (tx_body_root Byte.xf1 1%N 2%N [] 21000%N (Some 0%N)
           [CbEnter 1 Byte.xf1 2%N 3%N [] 5000%N (Some 3%N);
            CbExit 1 [] 100%N None false]).
  apply (scopes_call 1 Byte.xf1 2%N 3%N [] 5000%N (Some 3%N) [] [] 100%N None
           false []); apply scopes_nil.
Qed.

Lemma transaction_is_rebuilt_as_tree_witness :
  OnlyTopCall (config cases.with_logs) = false
  /\ scopes 1 cases.inner
  /\ exists root t',
       builds sample.processOutput true 1 cases.inner
         (entered Byte.xf1 1%N 2%N [] 21000%N (Some 5%N)) root
       /\ run_tx sample.processOutput sample.clearFailedLogs cases.with_logs
            21000%N
            (root_enter :: cases.inner ++ [root_exit])
            (Some (mkReceipt 20000%N)) None = Ok t'
       /\ callstacks t'
          = [[placeholder sample.clearFailedLogs true (mkReceipt 20000%N);
              root]]
       /\ callstack t' = [].
Proof.
  split; [reflexivity|]. split; [exact inner_scopes|].
  exact (transaction_is_rebuilt_as_tree sample.processOutput
           sample.clearFailedLogs cases.with_logs 21000%N Byte.xf1 1%N 2%N []
           21000%N (Some 5%N) cases.inner [] 21000%N None false
           (mkReceipt 20000%N) eq_refl inner_scopes).
Defined.

Lemma only_top_call_keeps_the_root_flat_witness :
  OnlyTopCall (config cases.top_only) = true
  /\ scopes 1 cases.inner
  /\ exists logs t',
       run_tx sample.processOutput sample.clearFailedLogs cases.top_only
         21000%N (root_enter :: cases.inner ++ [root_exit])
         (Some (mkReceipt 20000%N)) None = Ok t'
       /\ callstacks t'
          = [[placeholder sample.clearFailedLogs true (mkReceipt 20000%N);
              set_Logs (entered Byte.xf1 1%N 2%N [] 21000%N (Some 5%N)) logs]]
       /\ Forall (fun l => Position l = 0%N) logs.
Proof.
  split; [reflexivity|]. split; [exact inner_scopes|].
  destruct (only_top_call_keeps_the_root_flat sample.processOutput
              sample.clearFailedLogs cases.top_only 21000%N Byte.xf1 1%N 2%N
              [] 21000%N (Some 5%N) cases.inner [] 21000%N None false
              (mkReceipt 20000%N) eq_refl inner_scopes)
    as (logs & t' & Hrun & Hcss & Hpos & _).
  exists logs, t'. split; [exact Hrun|]. split; [exact Hcss|exact Hpos].
Defined.

Lemma block_txs_ok :
  Forall (fun x => tx_err x = None ->
                   tx_body (tx_callbacks x) /\ is_Some (tx_receipt x))
    [cases.executed_tx; cases.rejected_tx; cases.executed_tx].
Proof.
  assert (Hx : tx_err cases.executed_tx = None ->
               tx_body (tx_callbacks cases.executed_tx)
               /\ is_Some (tx_receipt cases.executed_tx)).
  { intros _. split; [exact plain_call_tx_body|]. eexists. reflexivity. }
  constructor; [exact Hx|]. constructor; [discriminate|].
  constructor; [exact Hx|]. constructor.
Qed.

Lemma block_holds_one_stack_per_executed_transaction_witness :
  Forall (fun x => tx_err x = None ->
                   tx_body (tx_callbacks x) /\ is_Some (tx_receipt x))
    [cases.executed_tx; cases.rejected_tx; cases.executed_tx]
  /\ exists t',
       run_block sample.processOutput sample.clearFailedLogs cases.finished
         [cases.executed_tx; cases.rejected_tx; cases.executed_tx] = Ok t'
       /\ Forall2 (produces sample.processOutput sample.clearFailedLogs
                     (config cases.finished))
            [cases.executed_tx; cases.executed_tx] (callstacks t')
       /\ Forall (fun stack => length stack = 2%nat) (callstacks t').
Proof.
  split; [exact block_txs_ok|].
  exact (block_holds_one_stack_per_executed_transaction sample.processOutput
           sample.clearFailedLogs cases.finished
           [cases.executed_tx; cases.rejected_tx; cases.executed_tx]
           block_txs_ok).
Defined.

Lemma callbacks_return_unless_log_without_frame_witness :
  callstack (OnTxStart cases.with_logs 21000%N) <> []
  /\ exists t',
       run sample.processOutput (OnTxStart cases.with_logs 21000%N)
         cases.unordered = Ok t'
       /\ same_block (OnTxStart cases.with_logs 21000%N) t'.
Proof.
  assert (H : callstack (OnTxStart cases.with_logs 21000%N) <> [])
    by discriminate.
  split; [exact H|].
  exact (callbacks_return_unless_log_without_frame sample.processOutput
           (OnTxStart cases.with_logs 21000%N) cases.unordered
           (or_intror H)).
Defined.

Lemma logs_are_dropped_without_log_collection_witness :
  WithLog (config fresh) = false
  /\ run sample.processOutput (OnTxStart fresh 21000%N)
       (root_enter :: cases.inner ++ [root_exit])
     = run sample.processOutput (OnTxStart fresh 21000%N)
         [root_enter;
          CbEnter 1 Byte.xf1 2%N 3%N [] 5000%N (Some 3%N);
          CbExit 1 [] 100%N None false;
          root_exit].
Proof.
  split; [reflexivity|].
  exact (logs_are_dropped_without_log_collection sample.processOutput
           (OnTxStart fresh 21000%N)
           (root_enter :: cases.inner ++ [root_exit]) eq_refl).
Defined.

Lemma join_texts js :
  (fix all (js : list json) : string :=
     match js with
     | [] => EmptyString
     | [j'] => sample.json_text j'
     | j' :: js' => (sample.json_text j' ++ "," ++ all js')%string
     end) js
  = join "," (map sample.json_text js).
Proof.
  induction js as [|j js IH]; [done|].
  destruct js as [|j' js]; [done|].
  change (map sample.json_text (j :: j' :: js))
    with (sample.json_text j :: map sample.json_text (j' :: js)).
  cbn [join]. destruct (map sample.json_text (j' :: js)) eqn:Hm; [done|].
  by rewrite <- IH.
Qed.

Lemma sample_writes_arrays : writes_arrays sample.json_encode.
Proof.
  intros js texts H. unfold sample.json_encode. f_equal.
  assert (Htexts : texts = map sample.json_text js).
  { induction H as [|j o js texts Hj _ IH]; [done|].
    injection Hj as <-. simpl. by rewrite IH. }
  subst texts. cbn [sample.json_text]. by rewrite join_texts.
Qed.

Lemma GetBytes_agrees_with_GetResult_witness :
  writes_arrays sample.json_encode
  /\ callstacks cases.finished <> []
  /\ GetBytes (tf := hexutil.text) sample.json_encode cases.finished
     = GetResult (tf := hexutil.text) sample.json_encode cases.finished.
Proof.
  assert (Hne : callstacks cases.finished <> []) by discriminate.
  split; [exact sample_writes_arrays|]. split; [exact Hne|].
  apply (proj2 (GetBytes_agrees_with_GetResult (tf := hexutil.text)
                  sample.json_encode cases.finished
                  (map (fun s => sample.json_text
                                   (marshal_slice (MarshalJSON (tf := hexutil.text)) s))
                     (callstacks cases.finished)))
           sample_writes_arrays Hne).
  repeat constructor.
Defined.


End Collector.

(** ** The export hook: more of package explorer *)

Module Exporter.
Import explorer exporter.

Lemma walk_reachable f : snd (walk f) = false -> fst (walk f) = reachable f.
Proof.
  induction f as [from to calls value ty IH] using Explorer.callFrame0_ind'.
  rewrite Explorer.walk_eq. unfold reachable, qualifies. fold reachable.
  simpl.
  destruct (String.eqb ty "Call"); [|done]. simpl.
  destruct (from =? emptyAddress)%N; [done|]. simpl.
  destruct to as [to|]; [|done]. destruct value as [v|]; [|done]. simpl.
  destruct (N.eqb_spec v 0) as [->|Hv]; [done|].
  destruct (N.ltb_spec 0 v); [|lia].
  assert (Hcalls : snd (walk_calls calls) = false ->
                   fst (walk_calls calls) = flat_map reachable calls).
  { clear -IH. induction IH as [|call calls Hcall _ IHcalls]; [done|].
    simpl. destruct (walk call) as [fs panicked]. simpl in Hcall.
    destruct panicked; [done|]. rewrite <- (Hcall eq_refl).
    destruct (walk_calls calls) as [fs' panicked']. simpl in *.
    intros ->. by rewrite IHcalls. }
  destruct (walk_calls calls) as [below panicked]. simpl in *.
  intros ->. by rewrite Hcalls.
Qed.

Lemma length_records Hash_Hex Address_Hex block tx ix fs :
  forall c,
    length (explorer.records Hash_Hex Address_Hex block tx ix c fs) = length fs.
Proof. induction fs as [|f fs IH]; intros c; simpl; [done|]. by rewrite IH. Qed.

Lemma records_tx_index Hash_Hex Address_Hex block tx ix fs :
  forall c,
    Forall (fun s => stmt_tx_index s = Some ix)
      (explorer.records Hash_Hex Address_Hex block tx ix c fs).
Proof. induction fs as [|f fs IH]; intros c; simpl; constructor; auto. Qed.

Section Facts.

Context {tf : TextForms}.
Variable Hash_Hex : N -> string.
Variable Address_Hex : Address -> string.
Variable Exec_err : list Stmt -> Stmt -> option error.
Variable json_parse : string -> option json.
Variable marshalBlockData : Block -> string -> string + error.

#[local] Abbreviation navigateCallFrame :=
  (explorer.navigateCallFrame Hash_Hex Address_Hex Exec_err).
#[local] Abbreviation range_calls :=
  (explorer.range_calls Hash_Hex Address_Hex Exec_err).
#[local] Abbreviation range_callstack :=
  (explorer.range_callstack Hash_Hex Address_Hex Exec_err).
#[local] Abbreviation range_callstacks :=
  (explorer.range_callstacks Hash_Hex Address_Hex Exec_err).
#[local] Abbreviation blockImportHook :=
  (explorer.blockImportHook Hash_Hex Address_Hex Exec_err json_parse
     marshalBlockData).
#[local] Abbreviation blockImportHook0 :=
  (exporter.blockImportHook0 Hash_Hex Exec_err marshalBlockData).
#[local] Abbreviation record := (explorer.record Hash_Hex Address_Hex).
#[local] Abbreviation records := (explorer.records Hash_Hex Address_Hex).
#[local] Abbreviation insert_failures := (exporter.insert_failures Exec_err).
#[local] Abbreviation accounted := (exporter.accounted Exec_err).

(** X8. The call indices of one walk are consecutive: the records a walk
    inserts carry the counter's value at the start, then the next number,
    and so on in the order of the inserts, all under the stack's position
    as [tx_index]; the counter is left advanced by the number of records,
    also when some of the inserts were refused. *)
Theorem call_indices_are_consecutive block ix c f w :
  exists new,
    executed (world_of (navigateCallFrame block ix c f w)) = executed w ++ new
    /\ stmt_call_index <$> new
       = (fun i => Some (c + Z.of_nat i)%Z) <$> seq 0 (length new)
    /\ Forall (fun s => stmt_tx_index s = Some ix) new
    /\ forall c' w',
         navigateCallFrame block ix c f w = Done c' w' -> c' = (c + len new)%Z.
Proof.
  destruct (index (Transactions block) ix) as [tx|msg] eqn:Hidx.
  - destruct (Explorer.navigate_refines Hash_Hex Address_Hex Exec_err block ix
                tx Hidx f c w) as (Hex & _ & Hc).
    exists (records block tx ix c (fst (walk f))).
    split; [done|].
    split; [by rewrite Explorer.records_call_indices, length_records|].
    split; [apply records_tx_index|].
    intros c' w' Hr. rewrite (Hc _ _ Hr). unfold len.
    by rewrite length_records.
  - exists []. rewrite app_nil_r.
    split; [by eapply Explorer.navigate_without_tx|].
    split; [done|]. split; [constructor|].
    intros c' w'. rewrite Explorer.navigateCallFrame_eq, Hidx.
    unfold len. simpl. rewrite Z.add_0_r.
    destruct (negb _ || _); [by intros [= -> _]|].
    destruct (To f); [|by intros [= -> _]].
    destruct (Value f) as [v|]; [|done].
    destruct (v =? 0)%N; [by intros [= -> _]|done].
Qed.

(** X9. A walk that returns has inserted a record for exactly the frames
    that pass the test and whose every ancestor in the tree passes it, in
    depth-first pre-order: nothing below a frame that fails the test is
    recorded, whatever it holds. *)
Theorem walk_records_the_frames_below_qualifying_ancestors block ix tx c f w
    c' w' :
  index (Transactions block) ix = Ok tx ->
  navigateCallFrame block ix c f w = Done c' w' ->
  executed w' = executed w ++ records block tx ix c (reachable f)
  /\ c' = (c + len (reachable f))%Z.
Proof.
  intros Hidx Hr.
  destruct (Explorer.navigate_refines Hash_Hex Address_Hex Exec_err block ix
              tx Hidx f c w) as (Hex & Hdone & Hc).
  rewrite Hr in Hex, Hdone. simpl in Hex, Hdone.
  symmetry in Hdone. apply negb_true_iff in Hdone.
  rewrite (walk_reachable f Hdone) in Hex, Hc.
  split; [done|]. by apply (Hc c' w').
Qed.

(** *** The value column *)

Lemma reachable_qualifies f : Forall (fun g => qualifies g = true) (reachable f).
Proof.
  induction f as [from to calls value ty IH] using Explorer.callFrame0_ind'.
  unfold reachable. fold reachable.
  destruct (qualifies _) eqn:Hq; [|constructor].
  constructor; [done|]. simpl. clear Hq.
  induction IH as [|call calls Hcall _ IHcalls]; simpl; [constructor|].
  apply Forall_app. by split.
Qed.

Lemma records_values block tx ix fs :
  Forall (fun g => qualifies g = true) fs ->
  forall c,
    Forall2 (fun s g =>
               qualifies g = true
               /\ exists v,
                    Value g = Some v
                    /\ stmt_value s = Some (Big_String v)
                    /\ stmt_value s ≫= read_decimal = Some v)
      (records block tx ix c fs) fs.
Proof.
  induction 1 as [|g fs Hg _ IH]; intros c; simpl; constructor; [|apply IH].
  split; [done|].
  destruct (Explorer.qualifies_Value g Hg) as (to & v & _ & Hv & _).
  exists v. split; [done|]. unfold explorer.record. simpl. rewrite Hv.
  split; [done|]. simpl. apply Explorer.read_decimal_Big_String.
Qed.


(** *** What is handed to the store does not depend on its answers *)

Lemma navigate_statements block ix c f :
  exists new,
    forall E w,
      executed (world_of (explorer.navigateCallFrame Hash_Hex Address_Hex E
                            block ix c f w))
      = executed w ++ new.
Proof.
  destruct (index (Transactions block) ix) as [tx|msg] eqn:Hidx.
  - exists (records block tx ix c (fst (walk f))). intros E w.
    by destruct (Explorer.navigate_refines Hash_Hex Address_Hex E block ix tx
                   Hidx f c w) as (-> & _).
  - exists []. intros E w. rewrite app_nil_r.
    by eapply Explorer.navigate_without_tx.
Qed.

Lemma range_callstack_statements block ix stack :
  exists new,
    forall E w,
      executed (world_of (explorer.range_callstack Hash_Hex Address_Hex E
                            block ix stack w))
      = executed w ++ new.
Proof.
  induction stack as [|f stack (rest & Hrest)].
  { exists []. intros E w. simpl. by rewrite app_nil_r. }
  destruct (navigate_statements block ix 0 f) as (new & Hnew).
  exists (if walk_returns block ix f then new ++ rest else new).
  intros E w. simpl.
  pose proof (Explorer.navigate_returns Hash_Hex Address_Hex E block ix f 0 w)
    as Hret.
  specialize (Hnew E w).
  destruct (explorer.navigateCallFrame Hash_Hex Address_Hex E block ix 0 f w)
    as [c' w'|msg w']; simpl in *; rewrite <- Hret.
  - by rewrite Hrest, Hnew, app_assoc.
  - done.
Qed.

Lemma range_callstacks_statements block callstacks :
  forall ix,
    exists new,
      forall E w,
        executed (world_of (explorer.range_callstacks Hash_Hex Address_Hex E
                              block ix callstacks w))
        = executed w ++ new.
Proof.
  induction callstacks as [|stack rest IH]; intros ix.
  { exists []. intros E w. simpl. by rewrite app_nil_r. }
  destruct (range_callstack_statements block ix stack) as (new & Hnew).
  destruct (IH (ix + 1)%Z) as (more & Hmore).
  exists (if forallb (walk_returns block ix) stack then new ++ more else new).
  intros E w. simpl.
  pose proof (Explorer.range_callstack_returns Hash_Hex Address_Hex E block ix
                stack w) as Hret.
  specialize (Hnew E w).
  destruct (explorer.range_callstack Hash_Hex Address_Hex E block ix stack w)
    as [[] w'|msg w']; simpl in *; rewrite <- Hret.
  - by rewrite Hmore, Hnew, app_assoc.
  - done.
Qed.

(** X10. The statements the hook hands to the store are settled by the
    block and the trace bytes alone: whatever the store answers to each of
    them (accepting or refusing any), the hook goes on to execute the same
    statements in the same order, with the same call indices. *)
Theorem statements_do_not_depend_on_the_store block traceData :
  exists new,
    forall E w,
      executed (world_of (explorer.blockImportHook Hash_Hex Address_Hex E
                            json_parse marshalBlockData block traceData w))
      = executed w ++ new.
Proof.
  unfold explorer.blockImportHook.
  destruct (marshalBlockData block traceData) as [jsonData|e].
  2:{ exists []. intros E w. simpl. by rewrite app_nil_r. }
  destruct (negb _).
  - destruct (json_Unmarshal json_parse traceData) as [callstacks|].
    + destruct (range_callstacks_statements block callstacks 0)
        as (new & Hnew).
      eexists (_ :: new). intros E w. simpl.
      rewrite Hnew. destruct (E _ _); simpl; by rewrite <- app_assoc.
    + eexists [_]. intros E w. simpl. by destruct (E _ _).
  - eexists [_]. intros E w. simpl. by destruct (E _ _).
Qed.

(** X11. The counter starts at 0 for every frame of a stack: when the loop
    over a stack returns, every frame of the stack that passes the test has
    its record in the store under call index 0, so two such frames in one
    stack share their [tx_hash] and [call_index]. *)
Theorem every_frame_of_a_stack_is_numbered_from_zero block ix tx stack w w' f :
  index (Transactions block) ix = Ok tx ->
  range_callstack block ix stack w = Done tt w' ->
  f ∈ stack ->
  qualifies f = true ->
  record block tx ix 0 f ∈ executed w'.
Proof.
  intros Hidx. revert w. induction stack as [|g stack IH]; intros w Hr Hf Hq.
  { by apply elem_of_nil in Hf. }
  simpl in Hr.
  destruct (Explorer.navigate_refines Hash_Hex Address_Hex Exec_err block ix
              tx Hidx g 0 w) as (Hex & _).
  destruct (navigateCallFrame block ix 0 g w) as [c1 w1|msg w1] eqn:Hnav;
    [|done].
  simpl in Hex.
  destruct (Explorer.range_callstack_provenance Hash_Hex Address_Hex Exec_err
              block ix stack w1) as (more & Hmore & _).
  rewrite Hr in Hmore. simpl in Hmore.
  apply elem_of_cons in Hf as [->|Hf].
  - destruct (Explorer.walk_root g Hq) as (below & Hw).
    rewrite Hmore, Hex, Hw. simpl.
    apply elem_of_app. left. apply elem_of_app. right. by left.
  - by apply (IH w1).
Qed.

(** *** What is logged *)

Lemma insert_failures_app block before new more :
  insert_failures block before (new ++ more)
  = insert_failures block before new
    ++ insert_failures block (before ++ new) more.
Proof.
  revert before. induction new as [|s new IH]; intros before; simpl.
  - by rewrite app_nil_r.
  - rewrite IH, <- !app_assoc. simpl. done.
Qed.

Lemma accounted_refl block w : accounted block w w.
Proof. exists []. simpl. by rewrite !app_nil_r. Qed.

Lemma accounted_trans block w1 w2 w3 :
  accounted block w1 w2 -> accounted block w2 w3 -> accounted block w1 w3.
Proof.
  intros (new & Hex & Hlog) (more & Hex' & Hlog').
  exists (new ++ more). rewrite Hex', Hex, Hlog', Hlog, Hex.
  by rewrite insert_failures_app, !app_assoc.
Qed.

Lemma navigate_accounted block ix f :
  forall c w, accounted block w (world_of (navigateCallFrame block ix c f w)).
Proof.
  induction f as [from to calls value ty IH] using Explorer.callFrame0_ind'.
  intros c w. rewrite Explorer.navigateCallFrame_eq. simpl.
  destruct (negb _ || _); [apply accounted_refl|].
  destruct to as [to|]; [|apply accounted_refl].
  destruct value as [v|]; [|apply accounted_refl].
  destruct (v =? 0)%N; [apply accounted_refl|].
  destruct (index (Transactions block) ix) as [tx|msg]; [|apply accounted_refl].
  simpl. set (s := explorer.record _ _ _ _ _ _ _).
  set (w2 := match Exec_err (executed w) s with Some _ => _ | None => _ end).
  assert (Hstep : accounted block w w2).
  { exists [s]. unfold w2. simpl.
    destruct (Exec_err (executed w) s); simpl; by rewrite ?app_nil_r. }
  eapply accounted_trans; [exact Hstep|].
  generalize (c + 1)%Z. generalize w2. clear -IH.
  induction IH as [|call calls Hcall _ IHcalls]; intros w0 c0; simpl.
  { apply accounted_refl. }
  specialize (Hcall c0 w0).
  destruct (navigateCallFrame block ix c0 call w0) as [c1 w1|msg w1];
    simpl in *; [|done].
  eapply accounted_trans; [exact Hcall|apply IHcalls].
Qed.

Lemma range_callstack_accounted block ix stack :
  forall w, accounted block w (world_of (range_callstack block ix stack w)).
Proof.
  induction stack as [|f stack IH]; intros w; simpl; [apply accounted_refl|].
  pose proof (navigate_accounted block ix f 0 w) as Hf.
  destruct (navigateCallFrame block ix 0 f w) as [c1 w1|msg w1]; simpl in *;
    [|done].
  eapply accounted_trans; [exact Hf|apply IH].
Qed.

Lemma range_callstacks_accounted block callstacks :
  forall ix w,
    accounted block w (world_of (range_callstacks block ix callstacks w)).
Proof.
  induction callstacks as [|stack rest IH]; intros ix w; simpl;
    [apply accounted_refl|].
  pose proof (range_callstack_accounted block ix stack w) as Hs.
  destruct (range_callstack block ix stack w) as [[] w1|msg w1]; simpl in *;
    [|done].
  eapply accounted_trans; [exact Hs|apply IH].
Qed.

(** X12. When the trace bytes do not decode, the hook logs the decode
    error and then logs "Failed to insert block data" with that same decode
    error, also when the block row was inserted without any error; a
    refused block insert is logged before these two lines. *)
Theorem undecodable_trace_is_logged_as_insert_failure block traceData jsonData
    w :
  marshalBlockData block traceData = inl jsonData ->
  traceData <> EmptyString ->
  json_Unmarshal json_parse traceData = None ->
  logged (world_of (blockImportHook block traceData w))
  = logged w
    ++ match Exec_err (executed w)
               (InsertBlockData (Number block) (Hash_Hex (Hash block)) jsonData
                  (Some traceData)) with
       | Some e =>
           [mkLogLine "Failed to insert block data" (Number block)
              (Hash block) e]
       | None => []
       end
    ++ [mkLogLine "Failed to unmarshal trace data" (Number block)
          (Hash block) unmarshal_error;
        mkLogLine "Failed to insert block data" (Number block) (Hash block)
          unmarshal_error].
Proof.
  intros Hjson Hne Hbad. unfold explorer.blockImportHook.
  rewrite Hjson, (Explorer.nonempty_length _ Hne), Hbad. simpl.
  destruct (Exec_err _ _); simpl; by rewrite <- !app_assoc.
Qed.

(** X14. Adding the extraction left the block row as it was: on every
    input the hook hands the store the statement the hook without
    extraction hands it, then only inserts of internal transactions; on
    empty trace bytes the two hooks do the same. The hook without
    extraction always returns. *)
Theorem extraction_only_adds_internal_inserts block traceData w :
  exists w0 more,
    blockImportHook0 block traceData w = Done tt w0
    /\ executed (world_of (blockImportHook block traceData w))
       = executed w0 ++ more
    /\ Forall (fun s => is_internal s = true) more
    /\ (traceData = EmptyString ->
        blockImportHook block traceData w = Done tt w0).
Proof.
  unfold exporter.blockImportHook0, explorer.blockImportHook.
  destruct (marshalBlockData block traceData) as [jsonData|e].
  2:{ eexists _, []. rewrite app_nil_r. repeat split; constructor. }
  destruct traceData as [|a traceData].
  { simpl. destruct (Exec_err _ _); eexists _, []; rewrite app_nil_r;
      repeat split; constructor. }
  change (negb (Z.of_nat (String.length (String a traceData)) =? 0)%Z)
    with true. cbv iota.
  unfold explorer.Exec.
  set (row := InsertBlockData _ _ _ _).
  destruct (json_Unmarshal json_parse (String a traceData)) as [callstacks|].
  - destruct (Exec_err (executed w) row) as [e|].
    + match goal with
      | |- context [range_callstacks _ _ _ ?w1] =>
          destruct (Explorer.range_callstacks_provenance Hash_Hex Address_Hex
                      Exec_err block callstacks 0 w1)
            as (new & Hex & Hprov); [lia|]
      end.
      eexists _, new. split; [reflexivity|]. split; [exact Hex|].
      split; [|done].
      eapply Forall_impl; [exact Hprov|]. simpl.
      by intros s (i & stack & _ & root & g & tx & c & _ & _ & _ & _ & ->).
    + match goal with
      | |- context [range_callstacks _ _ _ ?w1] =>
          destruct (Explorer.range_callstacks_provenance Hash_Hex Address_Hex
                      Exec_err block callstacks 0 w1)
            as (new & Hex & Hprov); [lia|]
      end.
      eexists _, new. split; [reflexivity|]. split; [exact Hex|].
      split; [|done].
      eapply Forall_impl; [exact Hprov|]. simpl.
      by intros s (i & stack & _ & root & g & tx & c & _ & _ & _ & _ & ->).
  - destruct (Exec_err (executed w) row); eexists _, []; rewrite app_nil_r;
      (split; [reflexivity|]); (split; [reflexivity|]);
      (split; [constructor|done]).
Qed.

End Facts.


Section Refusals.

Context {tf : TextForms}.
Variable Hash_Hex : N -> string.
Variable Address_Hex : Address -> string.
Variable json_parse : string -> option json.
Variable marshalBlockData : Block -> string -> string + error.

(** X13. With a trace that decodes, the statements the hook executes are
    the block row and then inserts of internal transactions, the same ones
    whatever the store answers: a refused insert does not stop the inserts
    after it. Every statement the store refuses is logged exactly once and
    in order, and nothing else is logged: the log grows by one line for
    the block row if it was refused and by one line for each refused
    internal-transaction insert. *)
Theorem every_refused_insert_is_logged_once block traceData jsonData
    callstacks :
  marshalBlockData block traceData = inl jsonData ->
  traceData <> EmptyString ->
  json_Unmarshal json_parse traceData = Some callstacks ->
  let row := InsertBlockData (Number block) (Hash_Hex (Hash block)) jsonData
               (Some traceData) in
  exists new,
    Forall (fun s => is_internal s = true) new
    /\ forall Exec_err w,
         let w' := world_of
                     (explorer.blockImportHook Hash_Hex Address_Hex Exec_err
                        json_parse marshalBlockData block traceData w) in
         executed w' = executed w ++ row :: new
         /\ logged w'
            = logged w
              ++ match Exec_err (executed w) row with
                 | Some e =>
                     [mkLogLine "Failed to insert block data" (Number block)
                        (Hash block) e]
                 | None => []
                 end
              ++ exporter.insert_failures Exec_err block (executed w ++ [row])
                   new.
Proof.
  intros Hjson Hne Hok row.
  destruct (range_callstacks_statements Hash_Hex Address_Hex block callstacks 0)
    as (new & Hnew).
  exists new. split.
  - destruct (Explorer.range_callstacks_provenance Hash_Hex Address_Hex
                (fun _ _ => None) block callstacks 0 (mkWorld [] []))
      as (new' & Hex' & Hprov); [lia|].
    rewrite Hnew in Hex'. apply app_inv_head in Hex'. subst new'.
    eapply Forall_impl; [exact Hprov|]. simpl.
    by intros s (i & stack & _ & root & g & tx & c & _ & _ & _ & _ & ->).
  - intros Exec_err w. unfold explorer.blockImportHook.
    rewrite Hjson, (Explorer.nonempty_length _ Hne), Hok. simpl. fold row.
    set (w1 := match Exec_err (executed w) row with
               | Some _ => _
               | None => _
               end).
    assert (Hex1 : executed w1 = executed w ++ [row])
      by (unfold w1; by destruct (Exec_err _ _)).
    destruct (range_callstacks_accounted Hash_Hex Address_Hex Exec_err block
                callstacks 0 w1) as (new' & Hex & Hlog).
    rewrite Hnew in Hex. apply app_inv_head in Hex. subst new'.
    rewrite Hnew, Hlog, Hex1, <- app_assoc. split; [done|].
    unfold w1. destruct (Exec_err _ _); simpl; by rewrite <- ?app_assoc.
Qed.

End Refusals.

(** *** The hook on the sample block *)

Lemma walk_records_the_frames_below_qualifying_ancestors_witness :
  index (Transactions sample.block) 0 = Ok 161%N
  /\ exists c' w',
       sample.navigate sample.block 0 0 sample.nested sample.nothing
       = Done c' w'
       /\ executed w'
          = executed sample.nothing
            ++ explorer.records sample.Hash_Hex sample.Address_Hex sample.block
                 161%N 0 0 (reachable sample.nested)
       /\ c' = (0 + len (reachable sample.nested))%Z.
Proof.
  split; [reflexivity|].
  destruct (sample.navigate sample.block 0 0 sample.nested sample.nothing)
    as [c' w'|msg w'] eqn:Hnav; [|discriminate Hnav].
  exists c', w'. split; [reflexivity|].
  exact (walk_records_the_frames_below_qualifying_ancestors sample.Hash_Hex
           sample.Address_Hex sample.Exec_err sample.block 0 161%N 0
           sample.nested sample.nothing c' w' eq_refl Hnav).
Defined.

Lemma every_frame_of_a_stack_is_numbered_from_zero_witness :
  index (Transactions sample.block) 0 = Ok 161%N
  /\ sample.transfer ∈ [sample.placeholder; sample.nested; sample.transfer]
  /\ qualifies sample.transfer = true
  /\ exists w',
       explorer.range_callstack sample.Hash_Hex sample.Address_Hex
         sample.Exec_err sample.block 0
         [sample.placeholder; sample.nested; sample.transfer] sample.nothing
       = Done tt w'
       /\ explorer.record sample.Hash_Hex sample.Address_Hex sample.block
            161%N 0 0 sample.transfer ∈ executed w'.
Proof.
  assert (Hin : sample.transfer
                ∈ [sample.placeholder; sample.nested; sample.transfer])
    by (right; right; left).
  split; [reflexivity|]. split; [exact Hin|]. split; [reflexivity|].
  destruct (explorer.range_callstack sample.Hash_Hex sample.Address_Hex
              sample.Exec_err sample.block 0
              [sample.placeholder; sample.nested; sample.transfer]
              sample.nothing) as [[] w'|msg w'] eqn:Hwalk;
    [|discriminate Hwalk].
  exists w'. split; [reflexivity|].
  exact (every_frame_of_a_stack_is_numbered_from_zero sample.Hash_Hex
           sample.Address_Hex sample.Exec_err sample.block 0 161%N
           [sample.placeholder; sample.nested; sample.transfer]
           sample.nothing w' sample.transfer eq_refl Hwalk Hin eq_refl).
Defined.

Lemma undecodable_trace_is_logged_as_insert_failure_witness :
  sample.marshalBlockData sample.block "[[" = inl "{}"
  /\ "[[" <> EmptyString
  /\ json_Unmarshal (tf := hexutil.text) sample.json_parse "[[" = None
  /\ logged (world_of (sample.import_hook sample.block "[[" sample.nothing))
     = [mkLogLine "Failed to unmarshal trace data" 7 700%N unmarshal_error;
        mkLogLine "Failed to insert block data" 7 700%N unmarshal_error].
Proof.
  assert (H3 : "[[" <> EmptyString) by discriminate.
  split; [reflexivity|]. split; [exact H3|]. split; [reflexivity|].
  exact (undecodable_trace_is_logged_as_insert_failure (tf := hexutil.text)
           sample.Hash_Hex sample.Address_Hex sample.Exec_err
           sample.json_parse sample.marshalBlockData sample.block "[[" "{}"
           sample.nothing eq_refl H3 eq_refl).
Defined.


Lemma trace_text_decodes :
  json_Unmarshal (tf := hexutil.text) sample.json_parse cases.trace_text
  = Some [[sample.placeholder;
           mkCallFrame0 1%N (Some 2%N)
             [mkCallFrame0 1%N (Some 2%N) [] (Some 5%N) "Call"]
             (Some 9%N) "Call"]].
Proof. vm_compute. reflexivity. Qed.

Lemma every_refused_insert_is_logged_once_witness :
  sample.marshalBlockData sample.block cases.trace_text = inl "{}"
  /\ cases.trace_text <> EmptyString
  /\ json_Unmarshal (tf := hexutil.text) sample.json_parse cases.trace_text
     = Some [[sample.placeholder;
              mkCallFrame0 1%N (Some 2%N)
                [mkCallFrame0 1%N (Some 2%N) [] (Some 5%N) "Call"]
                (Some 9%N) "Call"]]
  /\ exists new,
       length new = 2%nat
       /\ Forall (fun s => is_internal s = true) new
       /\ (let w' := world_of
                       (explorer.blockImportHook (tf := hexutil.text)
                          sample.Hash_Hex sample.Address_Hex cases.refusing
                          sample.json_parse sample.marshalBlockData
                          sample.block cases.trace_text sample.nothing) in
           executed w'
           = InsertBlockData 7 (sample.Hash_Hex 700%N) "{}"
               (Some cases.trace_text) :: new
           /\ logged w'
              = [mkLogLine "Failed to insert internal transaction" 7 700%N
                   "duplicate key";
                 mkLogLine "Failed to insert internal transaction" 7 700%N
                   "duplicate key"])
       /\ executed
            (world_of
               (sample.import_hook sample.block cases.trace_text
                  sample.nothing))
          = InsertBlockData 7 (sample.Hash_Hex 700%N) "{}"
              (Some cases.trace_text) :: new.
Proof.
  assert (Hne : cases.trace_text <> EmptyString) by discriminate.
  split; [reflexivity|]. split; [exact Hne|].
  split; [exact trace_text_decodes|].
  destruct (every_refused_insert_is_logged_once (tf := hexutil.text)
              sample.Hash_Hex sample.Address_Hex sample.json_parse
              sample.marshalBlockData sample.block cases.trace_text "{}" _
              eq_refl Hne trace_text_decodes) as (new & Hint & Hall).
  exists new.
  destruct (Hall cases.refusing sample.nothing) as (Hex & Hlog).
  destruct (Hall sample.Exec_err sample.nothing) as (Hex0 & _).
  assert (Hnew : new = drop 1 (executed
            (world_of
               (sample.import_hook sample.block cases.trace_text
                  sample.nothing)))).
  { unfold sample.import_hook. rewrite Hex0. reflexivity. }
  split; [rewrite Hnew; vm_compute; reflexivity|].
  split; [exact Hint|]. split; [|exact Hex0].
  split; [exact Hex|].
  rewrite Hlog, Hnew. vm_compute. reflexivity.
Defined.

End Exporter.

(** ** Setting the export up *)

Module Setup.
Import setup.

Lemma cut_at_space_None s : cut_at_space s = None <-> has_space s = false.
Proof.
  induction s as [|c s IH]; simpl; [done|].
  destruct (Ascii.eqb c " "); simpl; [done|].
  destruct (cut_at_space s) as [[before after]|]; simpl.
  - split; [done|]. intros H. by apply IH in H.
  - split; [|done]. intros _. by apply IH.
Qed.

Lemma cut_at_space_Some s before after :
  cut_at_space s = Some (before, after)
  <-> s = (before ++ String " " after)%string /\ has_space before = false.
Proof.
  revert before. induction s as [|c s IH]; intros before; simpl.
  - split; [done|]. intros [H _]. by destruct before.
  - destruct (Ascii.eqb c " ") eqn:Hc.
    + apply Ascii.eqb_eq in Hc. subst c. split.
      * intros [= <- <-]. done.
      * intros [H Hb]. destruct before as [|b before]; simpl in *.
        { by injection H as ->. }
        injection H as <- _. done.
    + split.
      * destruct (cut_at_space s) as [[b a]|]; simpl; [|done].
        intros [= <- <-]. destruct (proj1 (IH b) eq_refl) as [-> Hb]. simpl.
        by rewrite Hc.
      * intros [H Hb]. destruct before as [|b before]; simpl in *.
        { injection H as -> _. by rewrite Ascii.eqb_refl in Hc. }
        injection H as <- ->. apply orb_false_elim in Hb as [_ Hb].
        by rewrite (proj2 (IH before) (conj eq_refl Hb)).
Qed.

Section Facts.

Variable DB : Type.
Variable readFile : string -> string + error.
Variable sql_Open : string -> string -> DB + error.
Variable Ping : DB -> option error.
Variable TrimSpace : string -> string.

#[local] Abbreviation SetupExplorerDB :=
  (setup.SetupExplorerDB DB readFile sql_Open Ping TrimSpace).

Lemma connect_Ok driver params g g' :
  connect DB sql_Open Ping driver params g = Ok g'
  <-> exists db,
        sql_Open driver params = inl db /\ Ping db = None
        /\ g' = mkGlobals (Some db) (hooks_installed g).
Proof.
  unfold connect. destruct (sql_Open driver params) as [db|e].
  - destruct (Ping db) as [e|] eqn:HP.
    + split; [done|]. intros (db' & [= <-] & HP' & _). congruence.
    + split.
      * intros [= <-]. by exists db.
      * intros (db' & [= <-] & _ & ->). done.
  - split; [done|]. by intros (db' & H & _).
Qed.

(** X16. [SetupExplorerDB] returns in two cases only. With an empty path
    it changes nothing: no connection, no hooks. Otherwise the file was
    read, its content holds a space, the text before the first space,
    trimmed, starts with postgres (driver postgres) or else with mysql
    (driver mysql), everything after that first space, trimmed, opened a
    connection with that driver, and the connection answered the ping;
    then the connection is kept and the hooks are installed. *)
Theorem setup_returns_iff_disabled_or_connected dbParams g g' :
  SetupExplorerDB dbParams g = Ok g'
  <-> (dbParams = EmptyString /\ g' = g)
      \/ (dbParams <> EmptyString
          /\ exists before after driver db,
               readFile dbParams = inl (before ++ String " " after)%string
               /\ has_space before = false
               /\ ((String.prefix "postgres" (TrimSpace before) = true
                    /\ driver = "postgres"%string)
                   \/ (String.prefix "postgres" (TrimSpace before) = false
                       /\ String.prefix "mysql" (TrimSpace before) = true
                       /\ driver = "mysql"%string))
               /\ sql_Open driver (TrimSpace after) = inl db
               /\ Ping db = None
               /\ g' = mkGlobals (Some db) true).
Proof.
  unfold setup.SetupExplorerDB.
  destruct dbParams as [|c dbParams].
  { simpl. split.
    - intros [= <-]. by left.
    - intros [[_ ->]|[H _]]; done. }
  change (Z.of_nat (String.length (String c dbParams)) =? 0)%Z with false.
  cbv iota. set (path := String c dbParams).
  assert (Hpath : path <> EmptyString) by done.
  clearbody path.
  destruct (readFile path) as [content|e].
  2:{ split; [done|]. intros [[H _]|(_ & b & a & d & db & H & _)]; done. }
  unfold SplitN2.
  destruct (cut_at_space content) as [[before after]|] eqn:Hcut.
  2:{ simpl. split; [done|]. intros [[H _]|(_ & b & a & d & db & H & Hb & _)];
        [done|].
      injection H as ->.
      by rewrite (proj2 (cut_at_space_Some _ b a) (conj eq_refl Hb)) in Hcut. }
  apply cut_at_space_Some in Hcut as [-> Hb]. simpl.
  assert (Hsame : forall b a,
            (before ++ String " " after)%string = (b ++ String " " a)%string ->
            has_space b = false -> b = before /\ a = after).
  { intros b a Heq Hb'.
    pose proof (proj2 (cut_at_space_Some _ before after) (conj eq_refl Hb))
      as H1.
    rewrite Heq in H1.
    rewrite (proj2 (cut_at_space_Some _ b a) (conj eq_refl Hb')) in H1.
    by injection H1 as -> ->. }
  destruct (String.prefix "postgres" (TrimSpace before)) eqn:Hpg.
  - destruct (connect DB sql_Open Ping "postgres" (TrimSpace after) g)
      as [g1|e] eqn:Hc; simpl.
    + apply connect_Ok in Hc as (db & Hopen & Hping & ->). simpl. split.
      * intros [= <-]. right. split; [done|].
        exists before, after, "postgres"%string, db. repeat split; auto.
      * intros [[H _]|(_ & b & a & d & db' & [= H] & Hb' & Hd & Ho & _ & ->)];
          [done|].
        apply Hsame in H as [-> ->]; [|done].
        destruct Hd as [[_ ->]|[Hd _]]; [|congruence].
        rewrite Hopen in Ho. by injection Ho as ->.
    + split; [done|].
      intros [[H _]|(_ & b & a & d & db' & [= H] & Hb' & Hd & Ho & HP & ->)];
        [done|].
      apply Hsame in H as [-> ->]; [|done].
      destruct Hd as [[_ ->]|[Hd _]]; [|congruence].
      assert (connect DB sql_Open Ping "postgres" (TrimSpace after) g
              = Ok (mkGlobals (Some db') (hooks_installed g)))
        by (apply connect_Ok; by exists db').
      congruence.
  - destruct (String.prefix "mysql" (TrimSpace before)) eqn:Hmy.
    + destruct (connect DB sql_Open Ping "mysql" (TrimSpace after) g)
        as [g1|e] eqn:Hc; simpl.
      * apply connect_Ok in Hc as (db & Hopen & Hping & ->). simpl. split.
        -- intros [= <-]. right. split; [done|].
           exists before, after, "mysql"%string, db. repeat split; auto.
        -- intros [[H _]|(_ & b & a & d & db' & [= H] & Hb' & Hd & Ho & _ & ->)];
             [done|].
           apply Hsame in H as [-> ->]; [|done].
           destruct Hd as [[Hd _]|(_ & _ & ->)]; [congruence|].
           rewrite Hopen in Ho. by injection Ho as ->.
      * split; [done|].
        intros [[H _]|(_ & b & a & d & db' & [= H] & Hb' & Hd & Ho & HP & ->)];
          [done|].
        apply Hsame in H as [-> ->]; [|done].
        destruct Hd as [[Hd _]|(_ & _ & ->)]; [congruence|].
        assert (connect DB sql_Open Ping "mysql" (TrimSpace after) g
                = Ok (mkGlobals (Some db') (hooks_installed g)))
          by (apply connect_Ok; by exists db').
        congruence.
    + simpl. split; [done|].
      intros [[H _]|(_ & b & a & d & db' & [= H] & Hb' & Hd & _)]; [done|].
      apply Hsame in H as [-> ->]; [|done].
      destruct Hd as [[Hd _]|(_ & Hd & _)]; congruence.
Qed.

(** X17. A parameter file whose content holds no space stops the set-up
    with the panic "ExplorerDBParams is invalid", whatever driver it
    names: no connection is attempted. *)
Theorem content_without_space_is_invalid dbParams content g :
  dbParams <> EmptyString ->
  readFile dbParams = inl content ->
  has_space content = false ->
  SetupExplorerDB dbParams g = Panic "ExplorerDBParams is invalid".
Proof.
  intros Hne Hread Hno. unfold setup.SetupExplorerDB.
  destruct dbParams as [|c dbParams]; [done|].
  change (Z.of_nat (String.length (String c dbParams)) =? 0)%Z with false.
  cbv iota. rewrite Hread. unfold SplitN2.
  by rewrite (proj2 (cut_at_space_None content) Hno).
Qed.

End Facts.


(** *** The set-up on sample parameter files *)

Lemma content_without_space_is_invalid_witness :
  "no_space.conf" <> EmptyString
  /\ cases.readFile "no_space.conf" = inl ("mysql" ++ cases.newline)%string
  /\ has_space ("mysql" ++ cases.newline) = false
  /\ SetupExplorerDB (string * string) cases.readFile cases.sql_Open cases.Ping
       cases.TrimSpace "no_space.conf" (mkGlobals None false)
     = Panic "ExplorerDBParams is invalid".
Proof.
  assert (Hne : "no_space.conf" <> EmptyString) by discriminate.
  split; [exact Hne|]. split; [reflexivity|]. split; [reflexivity|].
  exact (content_without_space_is_invalid (string * string) cases.readFile
           cases.sql_Open cases.Ping cases.TrimSpace "no_space.conf"
           ("mysql" ++ cases.newline)%string (mkGlobals None false) Hne
           eq_refl eq_refl).
Defined.

Lemma setup_returns_iff_disabled_or_connected_witness :
  SetupExplorerDB (string * string) cases.readFile cases.sql_Open cases.Ping
    cases.TrimSpace "postgres.conf" (mkGlobals None false)
  = Ok (mkGlobals (Some ("postgres", "user=u dbname=d")) true).
Proof.
  apply (proj2 (setup_returns_iff_disabled_or_connected (string * string)
                  cases.readFile cases.sql_Open cases.Ping cases.TrimSpace
                  "postgres.conf" (mkGlobals None false)
                  (mkGlobals (Some ("postgres", "user=u dbname=d")) true))).
  right. split; [discriminate|].
  exists "postgresql", ("user=u dbname=d" ++ cases.newline)%string,
    "postgres", ("postgres", "user=u dbname=d").
  split; [reflexivity|]. split; [reflexivity|].
  split; [left; split; reflexivity|].
  split; [reflexivity|]. split; reflexivity.
Defined.

End Setup.
